(** * FisheyeTextScene: a shallow embedding of the scrolling-text fisheye scene

    The development follows [src/app/components/FisheyeTextScene.tsx]:

    - [JSNum]      JavaScript number operations used by the component
                   ([Math.floor], [%], [>], [<=]) over exact rationals;
    - [TextLayout] the word wrap ([wrapText]) and the edge fade ([edgeAlpha]),
                   over strings as sequences of UTF-16 code units;
    - [Compositor] the per-frame text placement of [drawOffscreen];
    - [Scene]      the effect body of the component: WebGL object life cycle,
                   [resize], [render] and the cleanup closure, as a state and
                   exception monad over a record of the mutable world, and
                   the events the browser delivers to it;
    - [Shader]     the vertex shader [VS] and the fragment shader [FS] over
                   the real numbers.

    IEEE rounding is not modelled: JavaScript numbers are read as exact
    rationals and GLSL floats as real numbers.  [NaN] appears in one place
    only, the remainder by zero, where it is an explicit [None]. *)

From Stdlib Require Import String Ascii List Bool ZArith QArith Qround Qminmax.
From Stdlib Require Import Reals Psatz Lia Morphisms.
Import ListNotations.

(* ================================================================== *)
(** * Definitions *)
(* ================================================================== *)

(** ** JavaScript numbers *)

Module JSNum.
Local Open Scope Q_scope.

(** [a > b] and [a <= b] on numbers. *)
Definition gt (a b : Q) : bool := negb (Qle_bool a b).
Definition le (a b : Q) : bool := Qle_bool a b.
Definition lt (a b : Q) : bool := negb (Qle_bool b a).

(** [Math.floor]. *)
Definition floor (q : Q) : Q := inject_Z (Qfloor q).

(** Rounding toward zero, the quotient behind [%]. *)
Definition trunc (q : Q) : Z :=
  if Qle_bool 0 q then Qfloor q else Qceiling q.

(** [a % b]: the remainder has the sign of the dividend; [a % 0] is [NaN],
    rendered as [None]. *)
Definition rem (a b : Q) : option Q :=
  if Qeq_bool b 0 then None
  else Some (a - b * inject_Z (trunc (a / b))).

End JSNum.

(** ** Text layout *)

Module TextLayout.

(** A JavaScript string is a sequence of UTF-16 code units. *)
Abbreviation code_unit := N.
Abbreviation text := (list N).

(** The text of an ASCII literal. *)
Definition ascii_text (s : string) : text :=
  map N_of_ascii (list_ascii_of_string s).

(** [" "]. *)
Definition space : text := [32%N].

(** The code units matched by the regular expression class [\s]: TAB, LF,
    VT, FF, CR, SPACE, NO-BREAK SPACE, U+1680, U+2000 to U+200A, the line
    and paragraph separators, U+202F, U+205F, U+3000 and U+FEFF. *)
Definition is_space (c : code_unit) : bool :=
  ((9 <=? c) && (c <=? 13) || (c =? 32) || (c =? 160) || (c =? 0x1680)
   || (0x2000 <=? c) && (c <=? 0x200A) || (c =? 0x2028) || (c =? 0x2029)
   || (c =? 0x202F) || (c =? 0x205F) || (c =? 0x3000) || (c =? 0xFEFF))%N.

(** Truthiness of a string: [""] is the only falsy one. *)
Definition truthy (s : text) : bool :=
  match s with
  | [] => false
  | _ :: _ => true
  end.

(** [t.split(/\s+/)].  [cur] is the piece being read and [gap] tells that the
    scan is inside a run of white space, whose piece has been emitted.  A
    leading run yields a leading [""], a trailing run a trailing [""], and
    the empty text yields [[""]]. *)
Fixpoint split_from (t : text) (cur : text) (gap : bool) : list text :=
  match t with
  | [] => [cur]
  | c :: t' =>
      if is_space c then
        if gap then split_from t' [] true
        else cur :: split_from t' [] true
      else split_from t' (cur ++ [c]) false
  end.

Definition split_ws (t : text) : list text := split_from t [] false.

(** The non-empty pieces of the split. *)
Definition words (t : text) : list text := filter truthy (split_ws t).

(** A text without any white space, and a text of white space only. *)
Definition no_space (s : text) : bool :=
  forallb (fun c => negb (is_space c)) s.
Definition blank (s : text) : bool := forallb is_space s.

(** The sequence of white-space-delimited words of a text, said without
    the split: a text of white space only has no word; otherwise the text
    is some white space, then a non-empty word free of white space, then a
    rest that is empty or resumes with white space and holds the other
    words. *)
Inductive word_sequence : text -> list text -> Prop :=
| words_none (g : text) :
    blank g = true -> word_sequence g []
| words_cons (g w rest : text) (ws : list text) :
    blank g = true ->
    w <> [] -> no_space w = true ->
    (rest = [] \/ exists c r, rest = c :: r /\ is_space c = true) ->
    word_sequence rest ws ->
    word_sequence (g ++ w ++ rest) (w :: ws).

(** The longest prefix free of white space, and what follows it. *)
Fixpoint word_prefix (t : text) : text * text :=
  match t with
  | [] => ([], [])
  | c :: t' =>
      if is_space c then ([], t)
      else let '(w, rest) := word_prefix t' in (c :: w, rest)
  end.

(** [ls.join(sep)]. *)
Fixpoint join (sep : text) (ls : list text) : text :=
  match ls with
  | [] => []
  | [x] => x
  | x :: ls' => x ++ sep ++ join sep ls'
  end.

Section Wrap.
Local Open Scope Q_scope.

(** [ctx.measureText(s).width] under the font current in [ctx]. *)
Variable measureText : text -> Q.
Variable maxWidth : Q.

(** The body of the [for] loop of [wrapText], over the remaining words,
    threading [lines] and [line]. *)
Fixpoint wrap_loop (ws : list text) (lines : list text) (line : text)
  : list text * text :=
  match ws with
  | [] => (lines, line)
  | w :: ws' =>
      let test := if truthy line then line ++ space ++ w else w in
      if JSNum.gt (measureText test) maxWidth && truthy line
      then wrap_loop ws' (lines ++ [line]) w
      else wrap_loop ws' lines test
  end.

Definition wrapText (t : text) : list text :=
  let '(lines, line) := wrap_loop (split_ws t) [] [] in
  if truthy line then lines ++ [line] else lines.

End Wrap.

(** The last statement of [wrapText], [if (line) lines.push(line)], on the
    pair in which the loop ends. *)
Definition finish (r : list text * text) : list text :=
  if truthy (snd r) then fst r ++ [snd r] else fst r.

(** [edgeAlpha(y, h, fade)], for [fade > 0]: its one caller passes
    [fade = 2 * lineHeight], which is 40 at least.  (At [fade = 0]
    JavaScript divides to an infinity or to [NaN]; that case is not
    modelled.) *)
Definition edgeAlpha (y h fade : Q) : Q :=
  let top := Qmin 1 ((y - 0) / fade) in
  let bottom := Qmin 1 ((h - y) / fade) in
  Qmax 0 (Qmin top bottom).

End TextLayout.

(** ** Intermediate surface compositor: text placement *)

Module Compositor.
Local Open Scope Q_scope.

(** One [ctx.fillText(line, x, y)] issued under [ctx.globalAlpha = alpha]. *)
Record TextDraw : Type := mkTextDraw {
  td_line : TextLayout.text;
  td_x : Q;
  td_y : Q;
  td_alpha : Q
}.

Section Layout.
(** [measureText fontPx s]: the width of [s] in the bold serif font of
    [fontPx] pixels. *)
Variable measureText : Q -> TextLayout.text -> Q.
Variable text : TextLayout.text.
(** [off.width], [off.height] and [window.innerWidth < 768]. *)
Variables w h : Z.
Variable isMobile : bool.

Definition fontPx : Q :=
  Qmax 16 (JSNum.floor (if isMobile then inject_Z h * 0.04
                        else inject_Z h * 0.05)).

Definition lines : list TextLayout.text :=
  TextLayout.wrapText (measureText fontPx)
    (JSNum.floor (if isMobile then inject_Z w * 0.8 else inject_Z w * 0.65))
    text.

Definition lineHeight : Q := JSNum.floor (fontPx * 1.25).

Definition blockHeight : Q :=
  inject_Z (Z.of_nat (length lines)) * lineHeight + inject_Z h * 0.2.

Definition bottomMargin : Q := inject_Z h * 0.10.

(** [h - bottomMargin - (scroll % blockHeight)]; [None] is [NaN]. *)
Definition baseY (scroll : Q) : option Q :=
  match JSNum.rem scroll blockHeight with
  | Some r => Some (inject_Z h - bottomMargin - r)
  | None => None
  end.

(** The inner loop over [i], from index [i] on, for the stack drawn at
    [y]. *)
Fixpoint stack_from (ls : list TextLayout.text) (i : Z) (y : Q)
  : list TextDraw :=
  match ls with
  | [] => []
  | l :: ls' =>
      let lx := inject_Z w * 0.5 in
      let ly := y + inject_Z i * lineHeight in
      let a := TextLayout.edgeAlpha ly (inject_Z h) (lineHeight * 2) in
      (if JSNum.le a 0 then [] else [mkTextDraw l lx ly a])
        ++ stack_from ls' (i + 1) y
  end.

(** The stack of one [pass]. *)
Definition stack (b : Q) (pass : Z) : list TextDraw :=
  stack_from lines 0 (b + inject_Z pass * blockHeight).

(** The text drawn in one frame: the passes [-1] and [0].  With a [NaN]
    base line every [fillText] receives a non-finite coordinate and
    paints nothing. *)
Definition text_draws (scroll : Q) : list TextDraw :=
  match baseY scroll with
  | Some b => stack b (-1) ++ stack b 0
  | None => []
  end.

End Layout.

(** Two draws agree: same line, same numbers. *)
Definition draw_eq (d e : TextDraw) : Prop :=
  td_line d = td_line e /\ td_x d == td_x e /\
  td_y d == td_y e /\ td_alpha d == td_alpha e.

Definition draws_eq : list TextDraw -> list TextDraw -> Prop :=
  Forall2 draw_eq.

(** Two remainders agree: both [NaN], or equal numbers. *)
Definition same_rem (a b : option Q) : Prop :=
  match a, b with
  | Some x, Some y => x == y
  | None, None => True
  | _, _ => False
  end.

(** A frame's draws moved down by [d] pixels. *)
Definition shift (d : Q) (ds : list TextDraw) : list TextDraw :=
  map (fun x => mkTextDraw (td_line x) (td_x x) (td_y x + d) (td_alpha x)) ds.

End Compositor.

(** ** The scene: WebGL objects, resize, frame loop and cleanup *)

Module Scene.
Local Open Scope Q_scope.
Local Open Scope string_scope.

Inductive ShaderKind : Type := VERTEX_SHADER | FRAGMENT_SHADER.

(** The kinds of WebGL object the component creates. *)
Inductive GLObject : Type :=
| GLShader (type : ShaderKind)
| GLProgram
| GLBuffer
| GLTexture.

Definition GLObject_eqb (a b : GLObject) : bool :=
  match a, b with
  | GLShader VERTEX_SHADER, GLShader VERTEX_SHADER => true
  | GLShader FRAGMENT_SHADER, GLShader FRAGMENT_SHADER => true
  | GLProgram, GLProgram => true
  | GLBuffer, GLBuffer => true
  | GLTexture, GLTexture => true
  | _, _ => false
  end.

(** Deleting one object: the first of its kind leaves the live list. *)
Fixpoint remove1 (o : GLObject) (l : list GLObject) : list GLObject :=
  match l with
  | [] => []
  | x :: l' => if GLObject_eqb o x then l' else x :: remove1 o l'
  end.

(** The component's props. *)
Record Props : Type := mkProps {
  text : TextLayout.text;
  speed : Q;
  k : Q;
  kcube : Q
}.

(** What the platform answers: which contexts exist, how compilation and
    linking end, and how wide a string is in a given font size. *)
Record Host : Type := mkHost {
  webgl : bool;
  context2d : bool;
  createShader_ok : ShaderKind -> bool;
  COMPILE_STATUS : ShaderKind -> bool;
  shaderInfoLog : ShaderKind -> string;
  createProgram_ok : bool;
  LINK_STATUS : bool;
  programInfoLog : string;
  measureText : Q -> TextLayout.text -> Q
}.

Record Window : Type := mkWindow {
  innerWidth : Z;
  innerHeight : Z;
  devicePixelRatio : Q
}.

(** The contents of a 2D canvas bitmap: transparent black after a reset,
    or the frame painted by [drawOffscreen] (gradient and highlight are
    determined by the size, the text by its draws). *)
Inductive Surface : Type :=
| Blank
| Frame (w h : Z) (ds : list Compositor.TextDraw).

(** Everything the effect reads and writes. *)
Record World : Type := mkWorld {
  gl_objects : list GLObject;     (* created and not deleted *)
  gl_program : bool;              (* a program is current *)
  gl_viewport : Z * Z;
  canvas_size : Z * Z;            (* canvas.width, canvas.height *)
  canvas_allocs : nat;            (* drawing buffer (re)allocations *)
  off_ctx : bool;                 (* off has a 2D context *)
  off_size : Z * Z;               (* off.width, off.height *)
  off_bitmap : Surface;
  off_resets : nat;               (* bitmap (re)allocations of off *)
  tex_image : Surface;            (* last image uploaded to tex *)
  pending : list nat;             (* animation frame requests not yet run *)
  next_request : nat;
  raf : nat;
  listener : bool;                (* onResize is attached to window *)
  start : Q;
  scroll : Q
}.

(** A page on which the effect has not run: a canvas of the default size
    and no WebGL object. *)
Definition page : World :=
  mkWorld [] false (300, 150)%Z (300, 150)%Z 0 false (300, 150)%Z Blank 0
          Blank [] 1 0 false 0 0.

Definition set_gl_objects v (s : World) : World :=
  mkWorld v (gl_program s) (gl_viewport s) (canvas_size s) (canvas_allocs s)
    (off_ctx s) (off_size s) (off_bitmap s) (off_resets s) (tex_image s)
    (pending s) (next_request s) (raf s) (listener s) (start s) (scroll s).
Definition set_gl_program v (s : World) : World :=
  mkWorld (gl_objects s) v (gl_viewport s) (canvas_size s) (canvas_allocs s)
    (off_ctx s) (off_size s) (off_bitmap s) (off_resets s) (tex_image s)
    (pending s) (next_request s) (raf s) (listener s) (start s) (scroll s).
Definition set_gl_viewport v (s : World) : World :=
  mkWorld (gl_objects s) (gl_program s) v (canvas_size s) (canvas_allocs s)
    (off_ctx s) (off_size s) (off_bitmap s) (off_resets s) (tex_image s)
    (pending s) (next_request s) (raf s) (listener s) (start s) (scroll s).
Definition set_canvas v n (s : World) : World :=
  mkWorld (gl_objects s) (gl_program s) (gl_viewport s) v n
    (off_ctx s) (off_size s) (off_bitmap s) (off_resets s) (tex_image s)
    (pending s) (next_request s) (raf s) (listener s) (start s) (scroll s).
Definition set_off_ctx v (s : World) : World :=
  mkWorld (gl_objects s) (gl_program s) (gl_viewport s) (canvas_size s)
    (canvas_allocs s) v (off_size s) (off_bitmap s) (off_resets s)
    (tex_image s) (pending s) (next_request s) (raf s) (listener s)
    (start s) (scroll s).
Definition set_off v b n (s : World) : World :=
  mkWorld (gl_objects s) (gl_program s) (gl_viewport s) (canvas_size s)
    (canvas_allocs s) (off_ctx s) v b n (tex_image s)
    (pending s) (next_request s) (raf s) (listener s) (start s) (scroll s).
Definition set_tex_image v (s : World) : World :=
  mkWorld (gl_objects s) (gl_program s) (gl_viewport s) (canvas_size s)
    (canvas_allocs s) (off_ctx s) (off_size s) (off_bitmap s) (off_resets s)
    v (pending s) (next_request s) (raf s) (listener s) (start s) (scroll s).
Definition set_requests p n r (s : World) : World :=
  mkWorld (gl_objects s) (gl_program s) (gl_viewport s) (canvas_size s)
    (canvas_allocs s) (off_ctx s) (off_size s) (off_bitmap s) (off_resets s)
    (tex_image s) p n r (listener s) (start s) (scroll s).
Definition set_listener v (s : World) : World :=
  mkWorld (gl_objects s) (gl_program s) (gl_viewport s) (canvas_size s)
    (canvas_allocs s) (off_ctx s) (off_size s) (off_bitmap s) (off_resets s)
    (tex_image s) (pending s) (next_request s) (raf s) v (start s) (scroll s).
Definition set_start v (s : World) : World :=
  mkWorld (gl_objects s) (gl_program s) (gl_viewport s) (canvas_size s)
    (canvas_allocs s) (off_ctx s) (off_size s) (off_bitmap s) (off_resets s)
    (tex_image s) (pending s) (next_request s) (raf s) (listener s) v
    (scroll s).
Definition set_scroll v (s : World) : World :=
  mkWorld (gl_objects s) (gl_program s) (gl_viewport s) (canvas_size s)
    (canvas_allocs s) (off_ctx s) (off_size s) (off_bitmap s) (off_resets s)
    (tex_image s) (pending s) (next_request s) (raf s) (listener s)
    (start s) v.

(** *** State and exceptions *)

Inductive Result (A : Type) : Type :=
| Return (a : A)
| Throw (message : string).
Arguments Return {A} a.
Arguments Throw {A} message.

Definition M (A : Type) : Type := World -> Result A * World.

Definition ret {A} (a : A) : M A := fun s => (Return a, s).
Definition throw {A} (message : string) : M A := fun s => (Throw message, s).
Definition bind {A B} (m : M A) (f : A -> M B) : M B :=
  fun s => match m s with
           | (Return a, s') => f a s'
           | (Throw e, s') => (Throw e, s')
           end.
Definition modify (f : World -> World) : M unit := fun s => (Return tt, f s).
Definition gets {A} (f : World -> A) : M A := fun s => (Return (f s), s).

Notation "x <- m ;; f" := (bind m (fun x => f))
  (at level 61, m at next level, right associativity).
Notation "m ;; f" := (bind m (fun _ => f))
  (at level 61, right associativity).

(** The world an action leaves, whether it returned or threw. *)
Definition exec {A} (m : M A) (s : World) : World := snd (m s).

(** *** WebGL helpers *)

Definition gl_create (o : GLObject) : M unit :=
  modify (fun s => set_gl_objects (o :: gl_objects s) s).

Definition gl_delete (o : GLObject) : M unit :=
  modify (fun s => set_gl_objects (remove1 o (gl_objects s)) s).

Definition requestAnimationFrame : M nat :=
  fun s =>
    let id := next_request s in
    (Return id, set_requests (id :: pending s) (S id) (raf s) s).

Definition cancelAnimationFrame (id : nat) : M unit :=
  modify (fun s =>
    set_requests (filter (fun x => negb (Nat.eqb x id)) (pending s))
                 (next_request s) (raf s) s).

Definition set_raf (id : nat) : M unit :=
  modify (fun s => set_requests (pending s) (next_request s) id s).

(** Assigning [off.width] or [off.height]: the attribute takes the value
    and, when the canvas has a 2D context, its bitmap is reallocated and
    cleared, also when the value is the one it already had. *)
Definition set_off_dimension (size : Z * Z) : M unit :=
  modify (fun s =>
    if off_ctx s then set_off size Blank (S (off_resets s)) s
    else set_off size (off_bitmap s) (off_resets s) s).

Section Component.
Variable host : Host.
Variable props : Props.

Definition createShader (type : ShaderKind) : M GLObject :=
  if createShader_ok host type then
    gl_create (GLShader type) ;;
    if COMPILE_STATUS host type then ret (GLShader type)
    else
      gl_delete (GLShader type) ;;
      throw ("Shader compile failed: " ++ shaderInfoLog host type)
  else throw "Failed to create shader".

Definition createProgram : M GLObject :=
  vs <- createShader VERTEX_SHADER ;;
  fs <- createShader FRAGMENT_SHADER ;;
  if createProgram_ok host then
    gl_create GLProgram ;;
    if LINK_STATUS host then ret GLProgram
    else
      gl_delete GLProgram ;;
      throw ("Program link failed: " ++ programInfoLog host)
  else throw "Failed to create program".

(** The values a canvas keeps in its [width] and [height] attributes as
    they are assigned: 0 to 2^31 - 1.  [resize] is modelled for sizes in
    this range. *)
Definition attribute_range (n : Z) : Prop := (0 <= n <= 2147483647)%Z.

(** The first three lines of [resize]: the size of the window in
    device pixels, the ratio being 1 when absent and 2 at most. *)
Definition device_size (win : Window) : Z * Z :=
  let dpr :=
    Qmin (if Qeq_bool (devicePixelRatio win) 0 then 1
          else devicePixelRatio win) 2 in
  let w := Qfloor (inject_Z (innerWidth win) * dpr) in
  let h := Qfloor (inject_Z (innerHeight win) * dpr) in
  (w, h).

Definition resize (win : Window) : M unit :=
  let '(w, h) := device_size win in
  modify (fun s =>
    if negb (Z.eqb (fst (canvas_size s)) w)
       || negb (Z.eqb (snd (canvas_size s)) h)
    then set_canvas (w, h) (2 + canvas_allocs s)%nat s
    else s) ;;
  modify (fun s => set_gl_viewport (canvas_size s) s) ;;
  cur <- gets off_size ;;
  set_off_dimension (w, snd cur) ;;
  set_off_dimension (w, h).

Definition drawOffscreen (win : Window) (dt : Q) : M unit :=
  size <- gets off_size ;;
  has_ctx <- gets off_ctx ;;
  if negb has_ctx then
    throw "TypeError: Cannot read properties of null (reading 'clearRect')"
  else
    modify (fun s => set_scroll (scroll s + speed props * dt) s) ;;
    sc <- gets scroll ;;
    let isMobile := Z.ltb (innerWidth win) 768 in
    modify (fun s =>
      set_off (off_size s)
        (Frame (fst size) (snd size)
           (Compositor.text_draws (measureText host) (text props)
              (fst size) (snd size) isMobile sc))
        (off_resets s) s).

(** The [dt] of a frame delivered at time [now], in seconds. *)
Definition frame_dt (now start0 : Q) : Q :=
  Qmin 0.05 ((now - start0) / 1000).

Definition render (win : Window) (now : Q) : M unit :=
  start0 <- gets start ;;
  let dt := frame_dt now start0 in
  modify (set_start now) ;;
  drawOffscreen win dt ;;
  image <- gets off_bitmap ;;
  modify (set_tex_image image) ;;
  id <- requestAnimationFrame ;;
  set_raf id.

(** What the effect hands back to React. *)
Inductive Effect : Type := NoCleanup | Cleanup.

(** The effect body; [now] is the value of [performance.now()]. *)
Definition useEffect (win : Window) (now : Q) : M Effect :=
  if negb (webgl host) then ret NoCleanup
  else
    program <- createProgram ;;
    modify (set_gl_program true) ;;
    gl_create GLBuffer ;;
    modify (fun s => set_off (300, 150)%Z Blank (off_resets s)
                       (set_off_ctx (context2d host) s)) ;;
    gl_create GLTexture ;;
    set_raf 0 ;;
    modify (set_start now) ;;
    modify (set_scroll 0) ;;
    resize win ;;
    id <- requestAnimationFrame ;;
    set_raf id ;;
    modify (set_listener true) ;;
    ret Cleanup.

(** The closure returned by the effect. *)
Definition cleanup : M unit :=
  id <- gets raf ;;
  cancelAnimationFrame id ;;
  modify (set_listener false) ;;
  gl_delete GLTexture ;;
  gl_delete GLBuffer ;;
  modify (set_gl_program false).

(** The browser runs the pending frame request, if there is one. *)
Definition animation_frame (win : Window) (now : Q) : M unit :=
  reqs <- gets pending ;;
  match reqs with
  | [] => ret tt
  | _ :: _ =>
      modify (fun s => set_requests [] (next_request s) (raf s) s) ;;
      render win now
  end.

(** The browser reports a resize of the window. *)
Definition resize_event (win : Window) : M unit :=
  attached <- gets listener ;;
  if attached then resize win else ret tt.

(** A run of frames at the given times. *)
Fixpoint frames (win : Window) (times : list Q) (s : World) : World :=
  match times with
  | [] => s
  | now :: times' => frames win times' (exec (animation_frame win now) s)
  end.

(** What the browser delivers to the component: a display refresh at time
    [now], or a resize of the window; [win] is the window as it then is. *)
Inductive Event : Type :=
| Refresh (win : Window) (now : Q)
| Resized (win : Window).

Definition deliver (e : Event) : M unit :=
  match e with
  | Refresh win now => animation_frame win now
  | Resized win => resize_event win
  end.

(** The world after a run of events; an exception ends the callback in
    which it is thrown and nothing else. *)
Fixpoint run (es : list Event) (s : World) : World :=
  match es with
  | [] => s
  | e :: es' => run es' (exec (deliver e) s)
  end.

End Component.

(** Frame times at most 50 ms apart, from [t0] on: no frame is late enough
    for its [dt] to be clamped. *)
Fixpoint steady (t0 : Q) (times : list Q) : Prop :=
  match times with
  | [] => True
  | t :: ts => t - t0 <= 50 /\ steady t ts
  end.

(** Frame times that never run backwards, from [t0] on. *)
Fixpoint nondecreasing (t0 : Q) (times : list Q) : Prop :=
  match times with
  | [] => True
  | t :: ts => t0 <= t /\ nondecreasing t ts
  end.

(** At most one frame request is outstanding, and [raf] holds it. *)
Definition one_request (s : World) : Prop :=
  pending s = [] \/ pending s = [raf s].

End Scene.

(** ** Concrete hosts, windows and props used in examples *)

Module Fixture.
Local Open Scope Q_scope.
Local Open Scope string_scope.
Import Scene.

(** A font in which every character is half an em wide. *)
Definition monospace (px : Q) (s : TextLayout.text) : Q :=
  inject_Z (Z.of_nat (length s)) * px * 0.5.

(** A platform on which every call succeeds. *)
Definition host_ok : Host :=
  mkHost true true (fun _ => true) (fun _ => true) (fun _ => "")
         true true "" monospace.

(** No WebGL context. *)
Definition host_no_webgl : Host :=
  mkHost false true (fun _ => true) (fun _ => true) (fun _ => "")
         true true "" monospace.

(** No 2D context for the offscreen canvas. *)
Definition host_no_2d : Host :=
  mkHost true false (fun _ => true) (fun _ => true) (fun _ => "")
         true true "" monospace.

(** The fragment shader does not compile. *)
Definition host_bad_fs : Host :=
  mkHost true true (fun _ => true)
         (fun type => match type with
                      | VERTEX_SHADER => true
                      | FRAGMENT_SHADER => false
                      end)
         (fun _ => "ERROR: 0:9: 'dot' : no matching overloaded function found")
         true true "" monospace.

Definition window_800x600 : Window := mkWindow 800 600 1.

(** The props of the home page, with a one-word text. *)
Definition props_A : Props :=
  mkProps (TextLayout.ascii_text "A") 54 (-1) 0.1.

(** The same scene scrolling the other way. *)
Definition props_back : Props :=
  mkProps (TextLayout.ascii_text "A") (-54) (-1) 0.1.

(** The scene mounted at time 0 on a fresh page. *)
Definition mounted : World := exec (useEffect host_ok window_800x600 0) page.

(** The mounted scene after its first frame, 16 ms later. *)
Definition painted : World :=
  exec (animation_frame host_ok props_A window_800x600 16) mounted.

(** The scene mounted without a 2D context. *)
Definition mounted_no_2d : World :=
  exec (useEffect host_no_2d window_800x600 0) page.

End Fixture.

(** ** The fragment shader *)

Module Shader.
Local Open Scope R_scope.

Record vec2 : Type := mkvec2 { vx : R; vy : R }.
Record vec4 : Type := mkvec4 { cr : R; cg : R; cb : R; ca : R }.

(** GLSL built-in functions, by their defining formulas. *)
Definition dot (a b : vec2) : R := vx a * vx b + vy a * vy b.
Definition clamp (x minVal maxVal : R) : R := Rmin (Rmax x minVal) maxVal.
Definition smoothstep (edge0 edge1 x : R) : R :=
  let t := clamp ((x - edge0) / (edge1 - edge0)) 0 1 in
  t * t * (3 - 2 * t).
Definition mix (x y a : R) : R := x * (1 - a) + y * a.

Definition ltb (x y : R) : bool := if Rlt_dec x y then true else false.

(** The vertex shader [VS]: the value it assigns to [vUv]. *)
Definition VS (aPosition : vec2) : vec2 :=
  mkvec2 (vx aPosition * 0.5 + 0.5) (vy aPosition * 0.5 + 0.5).

Section FS.
(** [texture2D(uTexture, .)], and the two distortion uniforms. *)
Variable uTexture : vec2 -> vec4.
Variables uK uKcube : R.

Definition centered (vUv : vec2) : vec2 :=
  mkvec2 (vx vUv - 0.5) (vy vUv - 0.5).

Definition r2 (vUv : vec2) : R := dot (centered vUv) (centered vUv).

Definition f (vUv : vec2) : R :=
  1.0 + r2 vUv * (uK + uKcube * sqrt (r2 vUv)).

Definition distorted (vUv : vec2) : vec2 :=
  mkvec2 (f vUv * vx (centered vUv) + 0.5)
         (f vUv * vy (centered vUv) + 0.5).

(** [mix(0.85, 1.0, smoothstep(0.9, 0.2, r2))]. *)
Definition vignette (r : R) : R := mix 0.85 1.0 (smoothstep 0.9 0.2 r).

(** [main]: the value assigned to [gl_FragColor]. *)
Definition FS (vUv : vec2) : vec4 :=
  let d := distorted vUv in
  if ltb (vx d) 0.0 || ltb 1.0 (vx d) || ltb (vy d) 0.0 || ltb 1.0 (vy d)
  then mkvec4 0.0 0.0 0.0 1.0
  else
    let col := uTexture d in
    let m := vignette (r2 vUv) in
    mkvec4 (cr col * m) (cg col * m) (cb col * m) (ca col).

End FS.

End Shader.

(* ================================================================== *)
(** * Properties *)
(* ================================================================== *)

(** ** Numbers *)

Module JSNumFacts.
Local Open Scope Q_scope.
Import JSNum.

(** [Qfloor] is the only integer at most [x] and more than [x - 1]. *)
Lemma Qfloor_unique (x : Q) (z : Z) :
  inject_Z z <= x -> x < inject_Z (z + 1) -> Qfloor x = z.
Proof.
  intros Hle Hlt.
  pose proof (Qfloor_le x) as F1. pose proof (Qlt_floor x) as F2.
  assert (A : inject_Z z < inject_Z (Qfloor x + 1)) by lra.
  assert (B : inject_Z (Qfloor x) < inject_Z (z + 1)) by lra.
  rewrite <- Zlt_Qlt in A, B. lia.
Qed.

Lemma Qfloor_succ (x : Q) : Qfloor (x + 1) = (Qfloor x + 1)%Z.
Proof.
  apply Qfloor_unique.
  - rewrite inject_Z_plus. pose proof (Qfloor_le x).
    change (inject_Z 1) with 1. lra.
  - rewrite !inject_Z_plus. pose proof (Qlt_floor x) as H.
    rewrite inject_Z_plus in H. change (inject_Z 1) with 1 in *. lra.
Qed.

Lemma Qfloor_nonneg (x : Q) : 0 <= x -> (0 <= Qfloor x)%Z.
Proof.
  intro H. change 0%Z with (Qfloor (inject_Z 0)). apply Qfloor_resp_le. exact H.
Qed.

Lemma div_nonneg (a b : Q) : 0 <= a -> 0 < b -> 0 <= a / b.
Proof.
  intros Ha Hb. apply Qle_shift_div_l; [assumption | lra].
Qed.

Lemma rem_pos_divisor (a b : Q) :
  0 <= a -> 0 < b ->
  rem a b = Some (a - b * inject_Z (Qfloor (a / b))).
Proof.
  intros Ha Hb. unfold rem, trunc.
  destruct (Qeq_bool b 0) eqn:E.
  - apply Qeq_bool_iff in E. lra.
  - pose proof (div_nonneg a b Ha Hb) as D.
    apply Qle_bool_iff in D. rewrite D. reflexivity.
Qed.

(** Adding one divisor to a non-negative dividend leaves the remainder. *)
Lemma rem_add_divisor (a b : Q) :
  0 <= a -> 0 < b ->
  exists r r', rem a b = Some r /\ rem (a + b) b = Some r' /\ r' == r.
Proof.
  intros Ha Hb.
  rewrite (rem_pos_divisor a b Ha Hb).
  rewrite (rem_pos_divisor (a + b) b) by lra.
  eexists; eexists; split; [reflexivity | split; [reflexivity|]].
  assert (E : (a + b) / b == a / b + 1) by (field; lra).
  rewrite (Qfloor_comp _ _ E), Qfloor_succ, inject_Z_plus.
  change (inject_Z 1) with 1. ring.
Qed.

(** Below the divisor, a non-negative dividend is its own remainder. *)
Lemma rem_small (a b : Q) :
  0 <= a -> a < b -> exists r, rem a b = Some r /\ r == a.
Proof.
  intros Ha Hb. rewrite (rem_pos_divisor a b) by lra.
  eexists; split; [reflexivity|].
  assert (F : Qfloor (a / b) = 0%Z).
  { apply Qfloor_unique.
    - change (inject_Z 0) with 0. apply div_nonneg; lra.
    - change (inject_Z (0 + 1)) with 1. apply Qlt_shift_div_r; lra. }
  rewrite F. change (inject_Z 0) with 0. ring.
Qed.

End JSNumFacts.


(** ** Word wrap *)

Module TextLayoutFacts.
Import TextLayout.

Lemma no_space_app a b : no_space (a ++ b) = no_space a && no_space b.
Proof. apply forallb_app. Qed.

Lemma blank_app a b : blank (a ++ b) = blank a && blank b.
Proof. apply forallb_app. Qed.

Lemma truthy_false s : truthy s = false -> s = [].
Proof. destruct s; [reflexivity | discriminate]. Qed.

Lemma truthy_true s : s <> [] -> truthy s = true.
Proof. destruct s; [congruence | reflexivity]. Qed.

(** Every piece produced by the split is free of white space. *)
Lemma split_from_no_space t : forall cur gap,
  no_space cur = true ->
  Forall (fun w => no_space w = true) (split_from t cur gap).
Proof.
  induction t as [|c t IH]; intros cur gap Hc; simpl.
  - constructor; [assumption | constructor].
  - destruct (is_space c) eqn:E.
    + destruct gap; [apply IH; reflexivity|].
      constructor; [assumption | apply IH; reflexivity].
    + apply IH. rewrite no_space_app, Hc. simpl. now rewrite E.
Qed.

(** A text free of white space is a single piece. *)
Lemma split_from_word w : forall cur gap,
  no_space w = true -> split_from w cur gap = [cur ++ w].
Proof.
  induction w as [|c w IH]; intros cur gap H; simpl in *.
  - now rewrite app_nil_r.
  - apply andb_true_iff in H as [Hc Hw].
    apply negb_true_iff in Hc. rewrite Hc.
    rewrite (IH _ false Hw), <- app_assoc. reflexivity.
Qed.

Lemma words_word w : no_space w = true -> words w = filter truthy [w].
Proof.
  intro H. unfold words, split_ws. now rewrite (split_from_word w [] false H).
Qed.

Lemma words_gap t :
  filter truthy (split_from t [] true) = filter truthy (split_from t [] false).
Proof.
  destruct t as [|c t]; simpl; [reflexivity|].
  destruct (is_space c); reflexivity.
Qed.

(** A white space in front adds no word. *)
Lemma words_space c t : is_space c = true -> words (c :: t) = words t.
Proof.
  intro H. unfold words, split_ws. simpl. rewrite H. simpl. apply words_gap.
Qed.

Lemma words_blank g t : blank g = true -> words (g ++ t) = words t.
Proof.
  induction g as [|c g IH]; simpl; intro H; [reflexivity|].
  apply andb_true_iff in H as [Hc Hg]. rewrite (words_space _ _ Hc). now apply IH.
Qed.

Lemma words_nil : words [] = [].
Proof. reflexivity. Qed.

Lemma words_all_blank g : blank g = true -> words g = [].
Proof.
  intro H. rewrite <- (app_nil_r g), (words_blank g [] H). reflexivity.
Qed.

(** Splitting a text that goes on with white space after [a]. *)
Lemma split_from_app_space a c b : forall cur gap,
  is_space c = true ->
  (gap = true -> cur = []) ->
  filter truthy (split_from (a ++ c :: b) cur gap)
  = filter truthy (split_from a cur gap) ++ words b.
Proof.
  intros cur gap Hc. revert cur gap.
  unfold words, split_ws. rewrite <- words_gap.
  induction a as [|x a IH]; intros cur gap Hg.
  - simpl. rewrite Hc. destruct gap; simpl.
    + rewrite (Hg eq_refl). reflexivity.
    + destruct (truthy cur); reflexivity.
  - simpl. destruct (is_space x).
    + destruct gap.
      * apply IH. reflexivity.
      * simpl. rewrite (IH [] true (fun _ => eq_refl)).
        destruct (truthy cur); reflexivity.
    + apply IH. discriminate.
Qed.

Lemma words_app_space a b : words (a ++ space ++ b) = words a ++ words b.
Proof.
  apply (split_from_app_space a 32%N b [] false); [reflexivity | discriminate].
Qed.

(** A word in front of a rest that is empty or resumes with white space. *)
Lemma words_word_app w rest :
  w <> [] -> no_space w = true ->
  (rest = [] \/ exists c r, rest = c :: r /\ is_space c = true) ->
  words (w ++ rest) = w :: words rest.
Proof.
  intros Hw Hn [-> | (c & r & -> & Hc)].
  - rewrite app_nil_r, (words_word w Hn). simpl. now rewrite (truthy_true w Hw).
  - unfold words at 1, split_ws.
    rewrite (split_from_app_space w c r [] false Hc) by discriminate.
    fold (split_ws w). fold (words w). rewrite (words_word w Hn). simpl.
    rewrite (truthy_true w Hw), (words_space c r Hc). reflexivity.
Qed.

(** *** The split yields the word sequence, and nothing else does *)

Lemma word_sequence_unique t ws : word_sequence t ws -> ws = words t.
Proof.
  induction 1 as [g Hg | g w rest ws Hg Hw Hn Hrest _ IH].
  - now rewrite (words_all_blank g Hg).
  - rewrite (words_blank g _ Hg), (words_word_app w rest Hw Hn Hrest), IH.
    reflexivity.
Qed.

Lemma word_sequence_space c t ws :
  is_space c = true -> word_sequence t ws -> word_sequence (c :: t) ws.
Proof.
  intros Hc H. destruct H as [g Hg | g w rest ws Hg Hw Hn Hrest H].
  - apply words_none. simpl. now rewrite Hc.
  - apply (words_cons (c :: g) w rest ws); try assumption.
    simpl. now rewrite Hc.
Qed.

Lemma word_prefix_spec t :
  t = fst (word_prefix t) ++ snd (word_prefix t)
  /\ no_space (fst (word_prefix t)) = true
  /\ (snd (word_prefix t) = []
      \/ exists c r, snd (word_prefix t) = c :: r /\ is_space c = true)
  /\ (length (snd (word_prefix t)) <= length t)%nat.
Proof.
  induction t as [|c t (E & N & R & L)]; simpl.
  - repeat split; auto.
  - destruct (is_space c) eqn:Hc; simpl.
    + repeat split; auto. right. eauto.
    + destruct (word_prefix t) as [w rest]. simpl in *.
      rewrite Hc. repeat split; auto. now f_equal.
Qed.

Lemma word_sequence_words_bounded n : forall t,
  (length t <= n)%nat -> word_sequence t (words t).
Proof.
  induction n as [|n IH]; intros t Hlen.
  - destruct t; [|simpl in Hlen; lia]. apply (words_none []). reflexivity.
  - destruct t as [|c t]; [apply (words_none []); reflexivity|].
    destruct (is_space c) eqn:Hc.
    + rewrite (words_space c t Hc). apply word_sequence_space; [assumption|].
      apply IH. simpl in Hlen. lia.
    + destruct (word_prefix_spec t) as (E & N & R & L).
      set (w := c :: fst (word_prefix t)).
      set (rest := snd (word_prefix t)) in *.
      assert (Et : c :: t = w ++ rest).
      { unfold w. simpl. now f_equal. }
      assert (Nw : no_space w = true) by (unfold w; simpl; now rewrite Hc).
      assert (Hw : w <> []) by discriminate.
      assert (Ew : words (c :: t) = w :: words rest).
      { rewrite Et. now apply words_word_app. }
      rewrite Ew, Et.
      apply (words_cons [] w rest (words rest)); try assumption;
        [reflexivity|].
      apply IH. simpl in Hlen. lia.
Qed.

Lemma word_sequence_words t : word_sequence t (words t).
Proof. apply (word_sequence_words_bounded (length t)). lia. Qed.

(** The words of the lines joined by single spaces are the words of the
    lines, in order. *)
Lemma words_join ls : words (join space ls) = flat_map words ls.
Proof.
  induction ls as [|x ls IH]; [reflexivity|].
  destruct ls as [|y r].
  - simpl. now rewrite app_nil_r.
  - change (join space (x :: y :: r)) with (x ++ space ++ join space (y :: r)).
    rewrite words_app_space, IH. reflexivity.
Qed.

Section Wrap.
Local Open Scope Q_scope.
Variable measureText : text -> Q.
Variable maxWidth : Q.

Lemma wrap_loop_words ws : forall lines line,
  Forall (fun w => no_space w = true) ws ->
  flat_map words (fst (wrap_loop measureText maxWidth ws lines line))
    ++ words (snd (wrap_loop measureText maxWidth ws lines line))
  = flat_map words lines ++ words line ++ filter truthy ws.
Proof.
  induction ws as [|w ws IH]; intros lines line Hws; cbn [wrap_loop].
  - simpl. now rewrite app_nil_r.
  - inversion Hws as [|? ? Hw Hws']; subst.
    assert (Htest : words (if truthy line then line ++ space ++ w else w)
                    = words line ++ filter truthy [w]).
    { destruct (truthy line) eqn:E.
      - now rewrite words_app_space, (words_word w Hw).
      - rewrite (truthy_false _ E). now rewrite (words_word w Hw). }
    destruct (JSNum.gt _ maxWidth && truthy line).
    + rewrite (IH _ _ Hws'), flat_map_app, (words_word w Hw). simpl.
      rewrite app_nil_r, <- !app_assoc.
      destruct (truthy w); reflexivity.
    + rewrite (IH _ _ Hws'), Htest, <- !app_assoc. simpl.
      destruct (truthy w); reflexivity.
Qed.

Lemma wrapText_words t :
  flat_map words (wrapText measureText maxWidth t) = words t.
Proof.
  unfold wrapText.
  pose proof (wrap_loop_words (split_ws t) [] []
                (split_from_no_space t [] false eq_refl)) as H.
  destruct (wrap_loop measureText maxWidth (split_ws t) [] []) as [L l].
  simpl in H. destruct (truthy l) eqn:E.
  - rewrite flat_map_app. simpl. now rewrite app_nil_r.
  - rewrite (truthy_false _ E), words_nil, app_nil_r in H. exact H.
Qed.

(** A line is acceptable when it fits or is one of the words. *)
Variable is_word : text -> Prop.
Let fits (l : text) : Prop := measureText l <= maxWidth \/ is_word l.

Lemma wrap_loop_fits ws : forall lines line,
  Forall (fun w => w = [] \/ is_word w) ws ->
  Forall fits lines -> (line = [] \/ fits line) ->
  Forall fits (fst (wrap_loop measureText maxWidth ws lines line))
  /\ (snd (wrap_loop measureText maxWidth ws lines line) = []
      \/ fits (snd (wrap_loop measureText maxWidth ws lines line))).
Proof.
  induction ws as [|w ws IH]; intros lines line Hws Hl Hline; simpl.
  - split; assumption.
  - inversion Hws as [|? ? Hw Hws']; subst.
    assert (Hw' : w = [] \/ fits w).
    { destruct Hw; [now left | right; now right]. }
    destruct (JSNum.gt _ maxWidth) eqn:G; destruct (truthy line) eqn:T; simpl.
    + apply IH; try assumption.
      apply Forall_app; split; [assumption|].
      constructor; [|constructor].
      destruct Hline as [-> | ?]; [discriminate | assumption].
    + apply IH; assumption.
    + apply IH; try assumption. right. left.
      unfold JSNum.gt in G. apply negb_false_iff in G.
      now apply Qle_bool_iff.
    + apply IH; assumption.
Qed.
End Wrap.

Lemma wrapText_fits measureText maxWidth t :
  Forall (fun l => (measureText l <= maxWidth)%Q \/ In l (words t))
         (wrapText measureText maxWidth t).
Proof.
  unfold wrapText.
  destruct (wrap_loop_fits measureText maxWidth (fun l => In l (words t))
              (split_ws t) [] []) as [H1 H2].
  - apply Forall_forall. intros w Hw. destruct (truthy w) eqn:E.
    + right. unfold words. apply filter_In. now split.
    + left. now apply truthy_false.
  - constructor.
  - now left.
  - destruct (wrap_loop measureText maxWidth (split_ws t) [] []) as [L l].
    simpl in *. destruct (truthy l) eqn:E; [|assumption].
    apply Forall_app; split; [assumption|]. constructor; [|constructor].
    destruct H2 as [-> | ?]; [discriminate | assumption].
Qed.

End TextLayoutFacts.

(** C1: a text has exactly one sequence of white-space-delimited words;
    every line returned by [wrapText] either measures at most [maxWidth] or
    is one of these words, and the lines joined by single spaces have the
    same sequence of words as the text. *)
Theorem wrapText_correct (measureText : TextLayout.text -> Q) (maxWidth : Q)
    (t : TextLayout.text) :
  exists ws : list TextLayout.text,
    TextLayout.word_sequence t ws
    /\ (forall ws', TextLayout.word_sequence t ws' -> ws' = ws)
    /\ Forall (fun l => (measureText l <= maxWidth)%Q \/ In l ws)
         (TextLayout.wrapText measureText maxWidth t)
    /\ TextLayout.word_sequence
         (TextLayout.join TextLayout.space
            (TextLayout.wrapText measureText maxWidth t))
         ws.
Proof.
  exists (TextLayout.words t). repeat apply conj.
  - apply TextLayoutFacts.word_sequence_words.
  - apply TextLayoutFacts.word_sequence_unique.
  - apply TextLayoutFacts.wrapText_fits.
  - rewrite <- (TextLayoutFacts.wrapText_words measureText maxWidth t),
      <- TextLayoutFacts.words_join.
    apply TextLayoutFacts.word_sequence_words.
Qed.

(** The example of the specification: ["AB CD"] is too wide, ["AB"] fits. *)
Example wrapText_AB_CD_EF :
  TextLayout.wrapText (Fixture.monospace 10) 20
    (TextLayout.ascii_text "AB CD EF")
  = map TextLayout.ascii_text ["AB"; "CD"; "EF"]%string.
Proof. reflexivity. Qed.

(** White space around the text adds no line and no word; an ideographic
    space (U+3000) separates words as well. *)
Example wrapText_padded :
  TextLayout.wrapText (Fixture.monospace 10) 20
    (TextLayout.ascii_text "  AB" ++ [0x3000%N] ++ TextLayout.ascii_text "CD ")
  = map TextLayout.ascii_text ["AB"; "CD "]%string.
Proof. reflexivity. Qed.

(** ** Text placement *)

Module CompositorFacts.
Local Open Scope Q_scope.
Import Compositor JSNumFacts.

#[export] Instance edgeAlpha_Proper :
  Proper (Qeq ==> Qeq ==> Qeq ==> Qeq) TextLayout.edgeAlpha.
Proof.
  intros y y' Hy h h' Hh fade fade' Hf. unfold TextLayout.edgeAlpha.
  now rewrite Hy, Hh, Hf.
Qed.

Lemma draws_eq_refl ds : draws_eq ds ds.
Proof.
  induction ds; constructor; [|assumption].
  unfold draw_eq. split; [reflexivity | split; [reflexivity | split]]; reflexivity.
Qed.

Lemma draws_eq_app a a' b b' :
  draws_eq a a' -> draws_eq b b' -> draws_eq (a ++ b) (a' ++ b').
Proof. apply Forall2_app. Qed.

Lemma draws_eq_length a b : draws_eq a b -> length a = length b.
Proof. apply Forall2_length. Qed.

Section Layout.
Variable measureText : Q -> TextLayout.text -> Q.
Variable text : TextLayout.text.
Variables w h : Z.
Variable isMobile : bool.

Local Abbreviation lines := (lines measureText text w h isMobile).
Local Abbreviation lineHeight := (lineHeight h isMobile).
Local Abbreviation blockHeight := (blockHeight measureText text w h isMobile).
Local Abbreviation baseY := (baseY measureText text w h isMobile).
Local Abbreviation stack_from := (stack_from w h isMobile).
Local Abbreviation text_draws := (text_draws measureText text w h isMobile).

Lemma fontPx_min : 16 <= fontPx h isMobile.
Proof. unfold fontPx. apply Q.le_max_l. Qed.

Lemma lineHeight_min : 20 <= lineHeight.
Proof.
  unfold Compositor.lineHeight, JSNum.floor.
  change 20 with (inject_Z 20). rewrite <- Zle_Qle.
  change 20%Z with (Qfloor (inject_Z 20)). apply Qfloor_resp_le.
  pose proof fontPx_min. change (inject_Z 20) with 20. lra.
Qed.

Lemma lines_height_nonneg :
  0 <= inject_Z (Z.of_nat (length lines)) * lineHeight.
Proof.
  apply Qmult_le_0_compat.
  - change 0 with (inject_Z 0). rewrite <- Zle_Qle. lia.
  - pose proof lineHeight_min. lra.
Qed.

Lemma blockHeight_pos : (0 < h)%Z -> 0 < blockHeight.
Proof.
  intro Hh. unfold Compositor.blockHeight.
  pose proof lines_height_nonneg.
  assert (0 < inject_Z h) by (change 0 with (inject_Z 0); now rewrite <- Zlt_Qlt).
  lra.
Qed.

Lemma blockHeight_nonneg : (0 <= h)%Z -> 0 <= blockHeight.
Proof.
  intro Hh. unfold Compositor.blockHeight.
  pose proof lines_height_nonneg.
  assert (0 <= inject_Z h) by (change 0 with (inject_Z 0); now rewrite <- Zle_Qle).
  lra.
Qed.

Lemma stack_from_Proper ls : forall i y y',
  y == y' -> draws_eq (stack_from ls i y) (stack_from ls i y').
Proof.
  induction ls as [|l ls IH]; intros i y y' E; simpl.
  - constructor.
  - apply draws_eq_app; [|now apply IH].
    assert (A : TextLayout.edgeAlpha (y + inject_Z i * lineHeight) (inject_Z h) (lineHeight * 2)
                == TextLayout.edgeAlpha (y' + inject_Z i * lineHeight) (inject_Z h) (lineHeight * 2))
      by now rewrite E.
    unfold JSNum.le. rewrite (Qleb_comp _ _ A 0 0 (Qeq_refl 0)).
    destruct (Qle_bool _ 0); constructor; [|constructor].
    unfold draw_eq; cbn [td_line td_x td_y td_alpha].
    split; [reflexivity | split; [reflexivity | split]].
    + now rewrite E.
    + exact A.
Qed.

(** Frames whose offsets leave the same remainder draw the same text. *)
Lemma text_draws_rem s s' r r' :
  JSNum.rem s blockHeight = Some r -> JSNum.rem s' blockHeight = Some r' ->
  r == r' -> draws_eq (text_draws s) (text_draws s').
Proof.
  intros Hs Hs' E. unfold Compositor.text_draws, Compositor.baseY.
  rewrite Hs, Hs'. unfold stack.
  apply draws_eq_app; apply stack_from_Proper; now rewrite E.
Qed.

Lemma text_draws_NaN s :
  JSNum.rem s blockHeight = None -> text_draws s = [].
Proof.
  intro Hs. unfold Compositor.text_draws, Compositor.baseY. now rewrite Hs.
Qed.

Lemma text_draws_period s :
  (0 <= h)%Z -> 0 <= s ->
  draws_eq (text_draws (s + blockHeight)) (text_draws s).
Proof.
  intros Hh Hs.
  destruct (Qlt_le_dec 0 blockHeight) as [Hb | Hb].
  - destruct (rem_add_divisor s blockHeight Hs Hb) as (r & r' & H1 & H2 & E).
    now apply (text_draws_rem _ _ r' r).
  - assert (Z0 : blockHeight == 0) by (pose proof (blockHeight_nonneg Hh); lra).
    assert (N : forall x, JSNum.rem x blockHeight = None).
    { intro x. unfold JSNum.rem.
      apply Qeq_bool_iff in Z0. now rewrite Z0. }
    rewrite !text_draws_NaN by apply N. constructor.
Qed.

Lemma baseY_defined s :
  (0 < h)%Z -> exists y, baseY s = Some y.
Proof.
  intro Hh. pose proof (blockHeight_pos Hh) as Hb.
  unfold Compositor.baseY, JSNum.rem.
  destruct (Qeq_bool blockHeight 0) eqn:E.
  - apply Qeq_bool_iff in E. lra.
  - eexists. reflexivity.
Qed.

Lemma text_draws_same_rem s s' :
  same_rem (JSNum.rem s blockHeight) (JSNum.rem s' blockHeight) ->
  draws_eq (text_draws s) (text_draws s').
Proof.
  destruct (JSNum.rem s blockHeight) as [r|] eqn:E;
    destruct (JSNum.rem s' blockHeight) as [r'|] eqn:E'; simpl; intro H;
    try contradiction.
  - now apply (text_draws_rem s s' r r').
  - rewrite !text_draws_NaN by assumption. constructor.
Qed.

End Layout.

(** The text is empty: no line at all. *)
Lemma lines_empty measureText w h isMobile :
  lines measureText [] w h isMobile = [].
Proof.
  unfold lines, TextLayout.wrapText. cbn [TextLayout.split_ws
    TextLayout.split_from TextLayout.wrap_loop TextLayout.truthy].
  rewrite andb_false_r. reflexivity.
Qed.

(** Away from both edges by the fade length, a line is fully opaque. *)
Lemma edgeAlpha_one (y h fade : Q) :
  0 < fade -> fade <= y -> y <= h - fade ->
  TextLayout.edgeAlpha y h fade == 1.
Proof.
  intros Hf Hy Hh. unfold TextLayout.edgeAlpha.
  assert (A : 1 <= (y - 0) / fade) by (apply Qle_shift_div_l; lra).
  assert (B : 1 <= (h - y) / fade) by (apply Qle_shift_div_l; lra).
  rewrite (Q.min_l 1 _ A), (Q.min_l 1 _ B), Q.min_id.
  apply Q.max_r. lra.
Qed.

(** *** The one-word text on a 1000 by 1000 surface *)

Section OneWord.
Import Fixture.

Lemma A_lines : lines monospace (TextLayout.ascii_text "A") 1000 1000 false = [(TextLayout.ascii_text "A")].
Proof. vm_compute. reflexivity. Qed.

Lemma A_lineHeight : lineHeight 1000 false = 62.
Proof. vm_compute. reflexivity. Qed.

Lemma A_blockHeight : blockHeight monospace (TextLayout.ascii_text "A") 1000 1000 false == 262.
Proof. vm_compute. reflexivity. Qed.

(** Just before the offset reaches the block height, the two stacks
    stand near 376 and 638. *)
Lemma A_before_wrap (eps : Q) :
  0 < eps <= 1 ->
  draws_eq
    (text_draws monospace (TextLayout.ascii_text "A") 1000 1000 false
       (blockHeight monospace (TextLayout.ascii_text "A") 1000 1000 false - eps))
    [mkTextDraw (TextLayout.ascii_text "A") 500 (376 + eps) 1; mkTextDraw (TextLayout.ascii_text "A") 500 (638 + eps) 1].
Proof.
  intros [H0 H1]. pose proof A_blockHeight as Hb.
  destruct (rem_small (blockHeight monospace (TextLayout.ascii_text "A") 1000 1000 false - eps)
              (blockHeight monospace (TextLayout.ascii_text "A") 1000 1000 false)) as (r & Hr & Er);
    [lra | lra |].
  unfold text_draws, baseY. rewrite Hr. unfold stack.
  rewrite A_lines. cbn [stack_from]. rewrite A_lineHeight.
  set (bh := blockHeight monospace (TextLayout.ascii_text "A") 1000 1000 false) in *.
  assert (Y1 : inject_Z 1000 - bottomMargin 1000 - r
               + inject_Z (-1) * bh + inject_Z 0 * 62 == 376 + eps).
  { unfold bottomMargin. change (inject_Z 1000) with 1000.
    change (inject_Z (-1)) with (-1). change (inject_Z 0) with 0. lra. }
  assert (Y0 : inject_Z 1000 - bottomMargin 1000 - r
               + inject_Z 0 * bh + inject_Z 0 * 62 == 638 + eps).
  { unfold bottomMargin. change (inject_Z 1000) with 1000.
    change (inject_Z 0) with 0. lra. }
  assert (A1 : TextLayout.edgeAlpha
                 (inject_Z 1000 - bottomMargin 1000 - r
                  + inject_Z (-1) * bh + inject_Z 0 * 62)
                 (inject_Z 1000) (62 * 2) == 1).
  { rewrite Y1. apply edgeAlpha_one; change (inject_Z 1000) with 1000; lra. }
  assert (A0 : TextLayout.edgeAlpha
                 (inject_Z 1000 - bottomMargin 1000 - r
                  + inject_Z 0 * bh + inject_Z 0 * 62)
                 (inject_Z 1000) (62 * 2) == 1).
  { rewrite Y0. apply edgeAlpha_one; change (inject_Z 1000) with 1000; lra. }
  unfold JSNum.le.
  rewrite (Qleb_comp _ _ A1 0 0 (Qeq_refl 0)),
          (Qleb_comp _ _ A0 0 0 (Qeq_refl 0)).
  change (Qle_bool 1 0) with false. cbn [app].
  constructor; [|constructor; [|constructor]];
    unfold draw_eq; cbn [td_line td_x td_y td_alpha];
    (split; [reflexivity
            | split; [vm_compute; reflexivity | split; assumption]]).
Qed.

(** At the block height the remainder is zero again: the stacks stand at
    638 and 900, the lower one at 25/31 of full opacity. *)
Lemma A_at_wrap :
  draws_eq
    (text_draws monospace (TextLayout.ascii_text "A") 1000 1000 false
       (blockHeight monospace (TextLayout.ascii_text "A") 1000 1000 false))
    [mkTextDraw (TextLayout.ascii_text "A") 500 638 1; mkTextDraw (TextLayout.ascii_text "A") 500 900 (25 # 31)].
Proof.
  vm_compute.
  constructor; [|constructor; [|constructor]];
    (split; [reflexivity | split; [reflexivity | split; reflexivity]]).
Qed.

(** Below zero the remainder is negative: one stack leaves the surface
    and the frames one block height apart differ in their number of
    draws. *)
Lemma A_below_zero (d : Q) :
  ~ draws_eq
      (shift d (text_draws monospace (TextLayout.ascii_text "A") 1000 1000 false (-100)))
      (text_draws monospace (TextLayout.ascii_text "A") 1000 1000 false
         (-100 + blockHeight monospace (TextLayout.ascii_text "A") 1000 1000 false)).
Proof.
  intro H. apply draws_eq_length in H. unfold shift in H.
  rewrite length_map in H. vm_compute in H. discriminate.
Qed.

End OneWord.

End CompositorFacts.

(** C10: on a surface of positive height the block height is positive, for
    every text; the remainder is then taken by a non-zero divisor and the
    base line is a number.  The empty text wraps to no line. *)
Theorem blockHeight_positive (measureText : Q -> TextLayout.text -> Q)
    (text : TextLayout.text)
    (w h : Z) (isMobile : bool) (scroll : Q) :
  (0 < h)%Z ->
  (0 < Compositor.blockHeight measureText text w h isMobile)%Q
  /\ (exists y, Compositor.baseY measureText text w h isMobile scroll = Some y)
  /\ Compositor.lines measureText [] w h isMobile = [].
Proof.
  intro Hh. split; [|split].
  - now apply CompositorFacts.blockHeight_pos.
  - now apply CompositorFacts.baseY_defined.
  - apply CompositorFacts.lines_empty.
Qed.

Lemma blockHeight_positive_witness :
  (0 < 1000)%Z
  /\ (0 < Compositor.blockHeight Fixture.monospace [] 1000 1000 false)%Q
  /\ (exists y,
        Compositor.baseY Fixture.monospace [] 1000 1000 false 0 = Some y)
  /\ Compositor.lines Fixture.monospace [] 1000 1000 false = [].
Proof.
  split; [lia|].
  apply (blockHeight_positive Fixture.monospace [] 1000 1000 false 0). lia.
Defined.

(** For every offset [s >= 0] the frame drawn at [s + blockHeight] is the
    frame drawn at [s]: same lines, same positions, same opacities. *)
Lemma text_draws_periodic (measureText : Q -> TextLayout.text -> Q)
    (text : TextLayout.text)
    (w h : Z) (isMobile : bool) (s : Q) :
  (0 <= h)%Z -> (0 <= s)%Q ->
  Compositor.draws_eq
    (Compositor.text_draws measureText text w h isMobile
       (s + Compositor.blockHeight measureText text w h isMobile))
    (Compositor.text_draws measureText text w h isMobile s).
Proof. intros Hh Hs. now apply CompositorFacts.text_draws_period. Qed.

(** C3 on the text ["A"] and a surface of 1000 by 1000: the two stacks do
    not make the loop seamless.  Up to the block height, 262, the stacks
    stand near 376 and 638; at the block height they stand at 638 and 900:
    a fully opaque line leaves at 376 and a line enters at 900 with opacity
    25/31.  Below zero the frames one block height apart do not even have
    the same number of lines, so no vertical shift makes them agree. *)
Lemma loop_not_seamless :
  (forall d : Q,
     ~ Compositor.draws_eq
         (Compositor.shift d
            (Compositor.text_draws Fixture.monospace (TextLayout.ascii_text "A") 1000 1000 false
               (-100)))
         (Compositor.text_draws Fixture.monospace (TextLayout.ascii_text "A") 1000 1000 false
            (-100 + Compositor.blockHeight Fixture.monospace (TextLayout.ascii_text "A") 1000 1000
                      false)))
  /\ (forall eps : Q,
        (0 < eps <= 1)%Q ->
        Compositor.draws_eq
          (Compositor.text_draws Fixture.monospace (TextLayout.ascii_text "A") 1000 1000 false
             (Compositor.blockHeight Fixture.monospace (TextLayout.ascii_text "A") 1000 1000 false
              - eps))
          [Compositor.mkTextDraw (TextLayout.ascii_text "A") 500 (376 + eps) 1;
           Compositor.mkTextDraw (TextLayout.ascii_text "A") 500 (638 + eps) 1])
  /\ Compositor.draws_eq
       (Compositor.text_draws Fixture.monospace (TextLayout.ascii_text "A") 1000 1000 false
          (Compositor.blockHeight Fixture.monospace (TextLayout.ascii_text "A") 1000 1000 false))
       [Compositor.mkTextDraw (TextLayout.ascii_text "A") 500 638 1;
        Compositor.mkTextDraw (TextLayout.ascii_text "A") 500 900 (25 # 31)].
Proof.
  split; [|split].
  - exact CompositorFacts.A_below_zero.
  - exact CompositorFacts.A_before_wrap.
  - exact CompositorFacts.A_at_wrap.
Qed.

(** ** The scene *)

Module SceneFacts.
Import Scene.
Local Open Scope Q_scope.

(** Unfold the monad and run the action on the state at hand. *)
Ltac run :=
  unfold exec, animation_frame, render, drawOffscreen, cleanup,
    requestAnimationFrame, cancelAnimationFrame, set_raf, set_off_dimension,
    gl_create, gl_delete, bind, gets, modify, ret, throw;
  cbn.

Section Component.
Variable host : Host.
Variable props : Props.
Variable win : Window.

Lemma render_ok now s :
  off_ctx s = true ->
  fst (render host props win now s) = Return tt
  /\ scroll (exec (render host props win now) s)
     = scroll s + speed props * frame_dt now (start s)
  /\ start (exec (render host props win now) s) = now.
Proof.
  intro H. run. rewrite H. cbn. repeat split.
Qed.

Lemma render_keeps_ctx now s :
  off_ctx (exec (render host props win now) s) = off_ctx s.
Proof.
  run. destruct (off_ctx s) eqn:E; cbn; rewrite ?E; reflexivity.
Qed.

Lemma render_no_ctx now s :
  off_ctx s = false ->
  scroll (exec (render host props win now) s) = scroll s
  /\ start (exec (render host props win now) s) = now.
Proof.
  intro H. run. rewrite H. cbn. repeat split.
Qed.

Lemma off_ctx_frame now s :
  off_ctx (exec (animation_frame host props win now) s) = off_ctx s.
Proof.
  run. destruct (pending s); cbn; [reflexivity|].
  destruct (off_ctx s) eqn:E; cbn; rewrite ?E; reflexivity.
Qed.

(** One frame: the offset moves by [speed * dt] or stays, and [start]
    becomes [now] or stays. *)
Lemma frame_step now s :
  let s' := exec (animation_frame host props win now) s in
  (scroll s' = scroll s \/
   scroll s' = scroll s + speed props * frame_dt now (start s))
  /\ (start s' = start s \/ start s' = now).
Proof.
  run. destruct (pending s); cbn; [split; left; reflexivity|].
  destruct (off_ctx s) eqn:E; cbn; split; auto.
Qed.

Lemma frame_dt_nonneg now start0 : start0 <= now -> 0 <= frame_dt now start0.
Proof.
  intro H. unfold frame_dt. apply Q.min_glb; [lra|].
  apply Qle_shift_div_l; lra.
Qed.

Lemma frames_app a b s :
  frames host props win (a ++ b) s
  = frames host props win b (frames host props win a s).
Proof. revert s. induction a as [|t a IH]; intro s; simpl; [reflexivity | apply IH]. Qed.

Hypothesis speed_nonneg : 0 <= speed props.

Lemma frame_monotone now s t0 :
  start s <= t0 -> t0 <= now ->
  scroll s <= scroll (exec (animation_frame host props win now) s)
  /\ start (exec (animation_frame host props win now) s) <= now.
Proof.
  intros H0 H1. destruct (frame_step now s) as [[Hs | Hs] [Ht | Ht]];
    rewrite Hs, Ht; split; try lra;
    pose proof (frame_dt_nonneg now (start s) ltac:(lra));
    pose proof (Qmult_le_0_compat _ _ speed_nonneg H); lra.
Qed.

Lemma frames_monotone times : forall s t0,
  start s <= t0 -> nondecreasing t0 times ->
  scroll s <= scroll (frames host props win times s).
Proof.
  induction times as [|t ts IH]; intros s t0 H0 Hn; simpl.
  - lra.
  - destruct Hn as [Ht Hn].
    destruct (frame_monotone t s t0 H0 Ht) as [A B].
    pose proof (IH _ t B Hn). lra.
Qed.

Lemma frames_prefix_monotone before : forall after s t0,
  start s <= t0 -> nondecreasing t0 (before ++ after) ->
  scroll (frames host props win before s)
  <= scroll (frames host props win (before ++ after) s).
Proof.
  induction before as [|t ts IH]; intros after s t0 H0 Hn.
  - simpl. now apply (frames_monotone after s t0).
  - simpl in *. destruct Hn as [Ht Hn].
    destruct (frame_monotone t s t0 H0 Ht) as [A B].
    now apply (IH after _ t).
Qed.

End Component.

(** *** Construction *)

Section Construction.
Variable host : Host.
Variable win : Window.
Variable now : Q.
Variable s : World.

Lemma useEffect_no_webgl :
  webgl host = false -> useEffect host win now s = (Return NoCleanup, s).
Proof. intro H. unfold useEffect. rewrite H. reflexivity. Qed.

(** How [createProgram] ends when the objects themselves can be created:
    with the message of the first failure, or with the program.  The frame
    requests and the listener are not touched. *)
Lemma createProgram_outcome :
  createShader_ok host VERTEX_SHADER = true ->
  createShader_ok host FRAGMENT_SHADER = true ->
  createProgram_ok host = true ->
  fst (createProgram host s)
  = (if negb (COMPILE_STATUS host VERTEX_SHADER) then
       Throw ("Shader compile failed: " ++ shaderInfoLog host VERTEX_SHADER)
     else if negb (COMPILE_STATUS host FRAGMENT_SHADER) then
       Throw ("Shader compile failed: "
              ++ shaderInfoLog host FRAGMENT_SHADER)
     else if negb (LINK_STATUS host) then
       Throw ("Program link failed: " ++ programInfoLog host)
     else Return GLProgram)
  /\ pending (snd (createProgram host s)) = pending s
  /\ listener (snd (createProgram host s)) = listener s.
Proof.
  intros Hv Hf Hp.
  unfold createProgram, createShader, gl_create, gl_delete,
    bind, modify, ret, throw.
  rewrite Hv, Hf, Hp.
  destruct (COMPILE_STATUS host VERTEX_SHADER); cbn; [|repeat split].
  destruct (COMPILE_STATUS host FRAGMENT_SHADER); cbn; [|repeat split].
  destruct (LINK_STATUS host); cbn; repeat split.
Qed.

(** An exception passes through [bind]. *)
Lemma bind_throw {A B} (m : M A) (f : A -> M B) e :
  fst (m s) = Throw e ->
  bind m f s = (Throw e, snd (m s)).
Proof.
  unfold bind. destruct (m s) as [[a | e'] s']; simpl; intro H;
    [discriminate | congruence].
Qed.

(** A failure of [createProgram] is the outcome of the effect, which then
    requests no frame and attaches no listener. *)
Lemma useEffect_build_failure e :
  webgl host = true ->
  fst (createProgram host s) = Throw e ->
  fst (useEffect host win now s) = Throw e
  /\ exec (useEffect host win now) s = snd (createProgram host s).
Proof.
  intros Hgl E. unfold exec, useEffect. rewrite Hgl. cbn [negb].
  rewrite (bind_throw _ _ _ E). split; reflexivity.
Qed.

End Construction.

(** *** Cleanup *)

Lemma remove1_other o x l :
  GLObject_eqb o x = false -> In x l -> In x (remove1 o l).
Proof.
  intros Hne. induction l as [|y l IH]; simpl; [tauto|].
  intros [-> | Hin].
  - rewrite Hne. now left.
  - destruct (GLObject_eqb o y); [assumption | right; now apply IH].
Qed.

Lemma remove1_subset o x l : In x (remove1 o l) -> In x l.
Proof.
  induction l as [|y l IH]; simpl; [tauto|].
  destruct (GLObject_eqb o y); simpl; [now right|].
  intros [-> | H]; [now left | right; now apply IH].
Qed.

(** Scaling a non-negative integer by at most 2 and rounding down. *)
Lemma floor_scaled (n : Z) (dpr : Q) :
  (0 <= n)%Z -> dpr <= 2 -> (Qfloor (inject_Z n * dpr) <= 2 * n)%Z.
Proof.
  intros Hn Hd.
  replace (2 * n)%Z with (Qfloor (inject_Z (2 * n))) by apply Qfloor_Z.
  apply Qfloor_resp_le. rewrite inject_Z_mult.
  change (inject_Z 2) with 2.
  assert (0 <= inject_Z n)
    by (change 0 with (inject_Z 0); now rewrite <- Zle_Qle).
  nra.
Qed.

(** The cleanup never deletes a program. *)
Lemma cleanup_program s :
  In GLProgram (gl_objects s) -> In GLProgram (gl_objects (exec cleanup s)).
Proof.
  intro H. run. apply remove1_other; [reflexivity|].
  apply remove1_other; [reflexivity | assumption].
Qed.

(** *** Resize *)

(** What one [resize] does to the canvas and to the offscreen canvas. *)
Lemma resize_fields win s :
  let s' := exec (resize win) s in
  let changed :=
    negb (fst (canvas_size s) =? fst (device_size win))%Z
    || negb (snd (canvas_size s) =? snd (device_size win))%Z in
  canvas_size s' = (if changed then device_size win else canvas_size s)
  /\ canvas_allocs s'
     = (if changed then 2 + canvas_allocs s else canvas_allocs s)%nat
  /\ off_size s' = device_size win
  /\ off_bitmap s' = (if off_ctx s then Blank else off_bitmap s)
  /\ off_resets s'
     = (if off_ctx s then S (S (off_resets s)) else off_resets s).
Proof.
  destruct s as [objs prog vp [cw ch] allocs ctx osize bitmap resets tex
                 reqs next id lst st sc].
  unfold exec, resize. destruct (device_size win) as [w h].
  unfold set_off_dimension, bind, gets, modify. cbn -[Z.eqb].
  destruct (negb (cw =? w)%Z || negb (ch =? h)%Z); destruct ctx; cbn;
    repeat split.
Qed.

(** A second [resize] for the same window leaves the canvas and its
    drawing buffer as they are. *)
Lemma resize_canvas_idempotent win s :
  canvas_size (exec (resize win) (exec (resize win) s))
  = canvas_size (exec (resize win) s)
  /\ canvas_allocs (exec (resize win) (exec (resize win) s))
     = canvas_allocs (exec (resize win) s).
Proof.
  destruct (resize_fields win (exec (resize win) s)) as (C2 & A2 & _).
  destruct (resize_fields win s) as (C1 & A1 & _).
  rewrite C2, A2. clear C2 A2.
  destruct (negb (fst (canvas_size s) =? fst (device_size win))%Z
            || negb (snd (canvas_size s) =? snd (device_size win))%Z) eqn:E;
    rewrite C1.
  - rewrite !Z.eqb_refl. split; reflexivity.
  - rewrite E. split; reflexivity.
Qed.

(** Every [resize] clears a canvas that has a 2D context, and reallocates
    its bitmap twice. *)
Lemma resize_resets_off win s :
  off_ctx s = true ->
  off_bitmap (exec (resize win) s) = Blank
  /\ off_resets (exec (resize win) s) = S (S (off_resets s)).
Proof.
  intro H. destruct (resize_fields win s) as (_ & _ & _ & B & R).
  rewrite B, R, H. split; reflexivity.
Qed.

End SceneFacts.

(** C5: a frame stores its time stamp in [start], so the [dt] of the
    next frame is measured from it: the frame at [now'] that follows the
    frame at [now] advances the offset by [speed] times the smaller of
    [(now' - now) / 1000] and 0.05.  An interval above 0.05 s thus advances
    it by exactly [speed * 0.05], and at speed 54 an interval of 0.016 s
    advances it by 0.864.  The first frame is measured in the same way from
    the [start] it finds. *)
Theorem render_scroll_advance (host : Scene.Host) (props : Scene.Props)
    (win : Scene.Window) (now now' : Q) (s : Scene.World) :
  Scene.off_ctx s = true ->
  fst (Scene.render host props win now s) = Scene.Return tt
  /\ Scene.start (Scene.exec (Scene.render host props win now) s) = now
  /\ (Scene.scroll (Scene.exec (Scene.render host props win now) s)
      == Scene.scroll s
         + Scene.speed props * Qmin ((now - Scene.start s) / 1000) 0.05)%Q
  /\ fst (Scene.render host props win now'
            (Scene.exec (Scene.render host props win now) s))
     = Scene.Return tt
  /\ Scene.start
       (Scene.exec (Scene.render host props win now')
          (Scene.exec (Scene.render host props win now) s))
     = now'
  /\ (Scene.scroll
        (Scene.exec (Scene.render host props win now')
           (Scene.exec (Scene.render host props win now) s))
      == Scene.scroll (Scene.exec (Scene.render host props win now) s)
         + Scene.speed props * Qmin ((now' - now) / 1000) 0.05)%Q
  /\ ((0.05 < (now' - now) / 1000)%Q ->
      (Scene.scroll
         (Scene.exec (Scene.render host props win now')
            (Scene.exec (Scene.render host props win now) s))
       == Scene.scroll (Scene.exec (Scene.render host props win now) s)
          + Scene.speed props * 0.05)%Q)
  /\ ((Scene.speed props == 54)%Q ->
      ((now' - now) / 1000 == 0.016)%Q ->
      (Scene.scroll
         (Scene.exec (Scene.render host props win now')
            (Scene.exec (Scene.render host props win now) s))
       - Scene.scroll (Scene.exec (Scene.render host props win now) s)
       == 0.864)%Q).
Proof.
  intro Hctx.
  destruct (SceneFacts.render_ok host props win now s Hctx) as (R1 & Sc1 & St1).
  assert (Hctx1 : Scene.off_ctx
                    (Scene.exec (Scene.render host props win now) s) = true)
    by (now rewrite SceneFacts.render_keeps_ctx).
  destruct (SceneFacts.render_ok host props win now' _ Hctx1)
    as (R2 & Sc2 & St2).
  rewrite St1 in Sc2.
  set (s1 := Scene.exec (Scene.render host props win now) s) in *.
  set (s2 := Scene.exec (Scene.render host props win now') s1) in *.
  assert (E2 : (Scene.scroll s2
                == Scene.scroll s1
                   + Scene.speed props * Qmin ((now' - now) / 1000) 0.05)%Q).
  { rewrite Sc2. unfold Scene.frame_dt.
    rewrite (Q.min_comm 0.05 ((now' - now) / 1000)). reflexivity. }
  repeat apply conj; try assumption.
  - rewrite Sc1. unfold Scene.frame_dt.
    rewrite (Q.min_comm 0.05 ((now - Scene.start s) / 1000)). reflexivity.
  - intro H. rewrite E2, (Q.min_r _ 0.05) by (apply Qlt_le_weak, H).
    reflexivity.
  - intros Hs Hd. rewrite E2, Hs, Hd.
    rewrite (Q.min_l 0.016 0.05) by discriminate. ring.
Qed.

Lemma render_scroll_advance_witness :
  Scene.off_ctx Fixture.mounted = true
  /\ Scene.start
       (Scene.exec
          (Scene.render Fixture.host_ok Fixture.props_A
             Fixture.window_800x600 16) Fixture.mounted) = 16
  /\ (Scene.scroll
        (Scene.exec
           (Scene.render Fixture.host_ok Fixture.props_A
              Fixture.window_800x600 32)
           (Scene.exec
              (Scene.render Fixture.host_ok Fixture.props_A
                 Fixture.window_800x600 16) Fixture.mounted))
      - Scene.scroll
          (Scene.exec
             (Scene.render Fixture.host_ok Fixture.props_A
                Fixture.window_800x600 16) Fixture.mounted)
      == 0.864)%Q.
Proof.
  destruct (render_scroll_advance Fixture.host_ok Fixture.props_A
              Fixture.window_800x600 16 32 Fixture.mounted eq_refl)
    as (_ & St & _ & _ & _ & _ & _ & H).
  split; [reflexivity | split; [exact St|]].
  apply H; vm_compute; reflexivity.
Defined.

(** C9, as amended: when the speed is not negative and the frame times
    never run backwards, the offset never decreases from one frame to a
    later one; and a frame's text depends on the offset only through its
    remainder by the block height. *)
Theorem scroll_monotone (host : Scene.Host) (props : Scene.Props)
    (win : Scene.Window) (s : Scene.World) (before after : list Q) :
  (0 <= Scene.speed props)%Q ->
  Scene.nondecreasing (Scene.start s) (before ++ after) ->
  (Scene.scroll (Scene.frames host props win before s)
   <= Scene.scroll (Scene.frames host props win (before ++ after) s))%Q
  /\ (forall (w h : Z) (isMobile : bool) (s1 s2 : Q),
        Compositor.same_rem
          (JSNum.rem s1
             (Compositor.blockHeight (Scene.measureText host)
                (Scene.text props) w h isMobile))
          (JSNum.rem s2
             (Compositor.blockHeight (Scene.measureText host)
                (Scene.text props) w h isMobile)) ->
        Compositor.draws_eq
          (Compositor.text_draws (Scene.measureText host) (Scene.text props)
             w h isMobile s1)
          (Compositor.text_draws (Scene.measureText host) (Scene.text props)
             w h isMobile s2)).
Proof.
  intros Hsp Hn. split.
  - apply (SceneFacts.frames_prefix_monotone host props win Hsp before after
             s (Scene.start s)); [apply Qle_refl | exact Hn].
  - intros w h isMobile s1 s2. apply CompositorFacts.text_draws_same_rem.
Qed.

Lemma scroll_monotone_witness :
  (0 <= Scene.speed Fixture.props_A)%Q
  /\ Scene.nondecreasing (Scene.start Fixture.mounted) ([16] ++ [32; 48])
  /\ (Scene.scroll
        (Scene.frames Fixture.host_ok Fixture.props_A Fixture.window_800x600
           [16] Fixture.mounted)
      <= Scene.scroll
           (Scene.frames Fixture.host_ok Fixture.props_A
              Fixture.window_800x600 ([16] ++ [32; 48]) Fixture.mounted))%Q.
Proof.
  assert (H0 : (0 <= Scene.speed Fixture.props_A)%Q)
    by (vm_compute; discriminate).
  assert (H1 : Scene.nondecreasing (Scene.start Fixture.mounted)
                 ([16] ++ [32; 48]))
    by (repeat apply conj; vm_compute; try discriminate; exact I).
  split; [exact H0 | split; [exact H1|]].
  exact (proj1 (scroll_monotone Fixture.host_ok Fixture.props_A
                  Fixture.window_800x600 Fixture.mounted [16] [32; 48]
                  H0 H1)).
Defined.

(** C9 fails as stated: with speed -54 the first frame moves the offset
    from 0 to -0.864; and a frame stamped earlier than the one before it
    moves the offset back as well. *)
Lemma negative_speed_scrolls_back :
  (Scene.scroll
     (Scene.frames Fixture.host_ok Fixture.props_back Fixture.window_800x600
        [16] Fixture.mounted)
   < Scene.scroll Fixture.mounted)%Q
  /\ (Scene.scroll
        (Scene.frames Fixture.host_ok Fixture.props_A Fixture.window_800x600
           [16; 0] Fixture.mounted)
      < Scene.scroll
          (Scene.frames Fixture.host_ok Fixture.props_A
             Fixture.window_800x600 [16] Fixture.mounted))%Q.
Proof. split; vm_compute; reflexivity. Qed.

(** C6 on the mounted scene after its first frame: a further [resize] for
    the unchanged window keeps the canvas, its drawing buffer and the size
    of the offscreen canvas, but clears the offscreen bitmap, which held
    the frame, and reallocates it twice. *)
Theorem resize_clears_offscreen :
  Scene.canvas_size
    (Scene.exec (Scene.resize Fixture.window_800x600) Fixture.painted)
  = Scene.canvas_size Fixture.painted
  /\ Scene.canvas_allocs
       (Scene.exec (Scene.resize Fixture.window_800x600) Fixture.painted)
     = Scene.canvas_allocs Fixture.painted
  /\ Scene.off_size
       (Scene.exec (Scene.resize Fixture.window_800x600) Fixture.painted)
     = Scene.off_size Fixture.painted
  /\ Scene.off_bitmap Fixture.painted <> Scene.Blank
  /\ Scene.off_bitmap
       (Scene.exec (Scene.resize Fixture.window_800x600) Fixture.painted)
     = Scene.Blank
  /\ Scene.off_resets
       (Scene.exec (Scene.resize Fixture.window_800x600) Fixture.painted)
     = S (S (Scene.off_resets Fixture.painted)).
Proof.
  repeat apply conj; vm_compute; try reflexivity. discriminate.
Qed.

(** C7 on the mounted scene: the cleanup cancels the pending frame,
    detaches the listener and deletes the texture and the buffer; the
    program and its two shaders stay allocated. *)
Theorem cleanup_leaves_program :
  fst (Scene.useEffect Fixture.host_ok Fixture.window_800x600 0 Scene.page)
  = Scene.Return Scene.Cleanup
  /\ Scene.pending (Scene.exec Scene.cleanup Fixture.mounted) = []
  /\ Scene.listener (Scene.exec Scene.cleanup Fixture.mounted) = false
  /\ Scene.gl_objects (Scene.exec Scene.cleanup Fixture.mounted)
     = [Scene.GLProgram; Scene.GLShader Scene.FRAGMENT_SHADER;
        Scene.GLShader Scene.VERTEX_SHADER].
Proof. repeat apply conj; vm_compute; reflexivity. Qed.

(** C8, as amended: without a WebGL context the effect returns without a
    scene and without an error; with one, a shader that fails to compile
    or a program that fails to link makes the effect throw, the message
    carrying the information log, with no frame requested and no listener
    attached. *)
Theorem construction_failures (host : Scene.Host) (win : Scene.Window)
    (now : Q) (s : Scene.World) :
  (Scene.webgl host = false ->
   Scene.useEffect host win now s = (Scene.Return Scene.NoCleanup, s))
  /\ (Scene.webgl host = true ->
      Scene.createShader_ok host Scene.VERTEX_SHADER = true ->
      Scene.createShader_ok host Scene.FRAGMENT_SHADER = true ->
      Scene.createProgram_ok host = true ->
      (Scene.COMPILE_STATUS host Scene.VERTEX_SHADER = false ->
       fst (Scene.useEffect host win now s)
       = Scene.Throw ("Shader compile failed: "
                      ++ Scene.shaderInfoLog host Scene.VERTEX_SHADER))
      /\ (Scene.COMPILE_STATUS host Scene.VERTEX_SHADER = true ->
          Scene.COMPILE_STATUS host Scene.FRAGMENT_SHADER = false ->
          fst (Scene.useEffect host win now s)
          = Scene.Throw ("Shader compile failed: "
                         ++ Scene.shaderInfoLog host Scene.FRAGMENT_SHADER))
      /\ (Scene.COMPILE_STATUS host Scene.VERTEX_SHADER = true ->
          Scene.COMPILE_STATUS host Scene.FRAGMENT_SHADER = true ->
          Scene.LINK_STATUS host = false ->
          fst (Scene.useEffect host win now s)
          = Scene.Throw ("Program link failed: "
                         ++ Scene.programInfoLog host))
      /\ (Scene.COMPILE_STATUS host Scene.VERTEX_SHADER
            && Scene.COMPILE_STATUS host Scene.FRAGMENT_SHADER
            && Scene.LINK_STATUS host = false ->
          Scene.pending (Scene.exec (Scene.useEffect host win now) s)
          = Scene.pending s
          /\ Scene.listener (Scene.exec (Scene.useEffect host win now) s)
             = Scene.listener s)).
Proof.
  split; [apply SceneFacts.useEffect_no_webgl|].
  intros Hgl Hv Hf Hp.
  destruct (SceneFacts.createProgram_outcome host s Hv Hf Hp) as (E & P & L).
  repeat apply conj.
  - intro V. rewrite V in E.
    apply (SceneFacts.useEffect_build_failure host win now s _ Hgl E).
  - intros V F. rewrite V, F in E.
    apply (SceneFacts.useEffect_build_failure host win now s _ Hgl E).
  - intros V F K. rewrite V, F, K in E.
    apply (SceneFacts.useEffect_build_failure host win now s _ Hgl E).
  - intro Fail.
    assert (X : exists e, fst (Scene.createProgram host s) = Scene.Throw e).
    { rewrite E.
      destruct (Scene.COMPILE_STATUS host Scene.VERTEX_SHADER);
        [|eexists; reflexivity].
      destruct (Scene.COMPILE_STATUS host Scene.FRAGMENT_SHADER);
        [|eexists; reflexivity].
      destruct (Scene.LINK_STATUS host); [discriminate | eexists; reflexivity]. }
    destruct X as [e X].
    destruct (SceneFacts.useEffect_build_failure host win now s e Hgl X)
      as [_ W].
    rewrite W. split; assumption.
Qed.

Lemma construction_failures_witness :
  fst (Scene.useEffect Fixture.host_bad_fs Fixture.window_800x600 0
         Scene.page)
  = Scene.Throw
      "Shader compile failed: ERROR: 0:9: 'dot' : no matching overloaded function found"
  /\ Scene.pending
       (Scene.exec (Scene.useEffect Fixture.host_bad_fs
                      Fixture.window_800x600 0) Scene.page) = []
  /\ Scene.listener
       (Scene.exec (Scene.useEffect Fixture.host_bad_fs
                      Fixture.window_800x600 0) Scene.page) = false.
Proof.
  destruct (proj2 (construction_failures Fixture.host_bad_fs
                     Fixture.window_800x600 0 Scene.page)
              eq_refl eq_refl eq_refl eq_refl) as (_ & F & _ & Idle).
  split; [exact (F eq_refl eq_refl) | exact (Idle eq_refl)].
Defined.

(** C8 fails as stated: without a WebGL context the effect returns
    normally and the page is as before; without a 2D context it returns
    its cleanup with a frame requested and the listener attached, and the
    error appears only when that frame runs. *)
Lemma missing_context_is_silent :
  Scene.useEffect Fixture.host_no_webgl Fixture.window_800x600 0 Scene.page
  = (Scene.Return Scene.NoCleanup, Scene.page)
  /\ fst (Scene.useEffect Fixture.host_no_2d Fixture.window_800x600 0
            Scene.page)
     = Scene.Return Scene.Cleanup
  /\ Scene.pending Fixture.mounted_no_2d = [1%nat]
  /\ Scene.listener Fixture.mounted_no_2d = true
  /\ fst (Scene.animation_frame Fixture.host_no_2d Fixture.props_A
            Fixture.window_800x600 16 Fixture.mounted_no_2d)
     = Scene.Throw
         "TypeError: Cannot read properties of null (reading 'clearRect')".
Proof. repeat apply conj; vm_compute; reflexivity. Qed.

(** ** The fragment shader *)

Module ShaderFacts.
Import Shader.
Local Open Scope R_scope.

Lemma ltb_true x y : ltb x y = true <-> x < y.
Proof. unfold ltb. destruct (Rlt_dec x y); split; intros; try assumption; try reflexivity; try discriminate; contradiction. Qed.

Lemma ltb_false x y : ltb x y = false <-> y <= x.
Proof.
  unfold ltb. destruct (Rlt_dec x y); split; intros; try discriminate; try reflexivity; lra.
Qed.

Lemma clamp_unit_range x : 0 <= clamp x 0 1 <= 1.
Proof.
  unfold clamp. apply Rmin_case_strong; apply Rmax_case_strong; intros; lra.
Qed.

Lemma clamp_high x : 1 <= x -> clamp x 0 1 = 1.
Proof.
  intro H. unfold clamp. rewrite Rmax_left by lra. apply Rmin_right. exact H.
Qed.

Lemma clamp_low x : x <= 0 -> clamp x 0 1 = 0.
Proof.
  intro H. unfold clamp. rewrite Rmax_right by lra. apply Rmin_left. lra.
Qed.

Lemma clamp_mono x y : x <= y -> clamp x 0 1 <= clamp y 0 1.
Proof.
  intro H. unfold clamp.
  apply Rle_min_compat_r. apply Rle_max_compat_r. exact H.
Qed.

(** The ramp of [smoothstep(0.9, 0.2, .)] falls as its argument grows. *)
Lemma ramp_antitone x y :
  x <= y -> (y - 0.9) / (0.2 - 0.9) <= (x - 0.9) / (0.2 - 0.9).
Proof.
  intro H. unfold Rdiv.
  assert (C : / (0.2 - 0.9) < 0) by (apply Rinv_lt_0_compat; lra).
  nra.
Qed.

Lemma hermite_mono s t : 0 <= s -> s <= t -> t <= 1 ->
  s * s * (3 - 2 * s) <= t * t * (3 - 2 * t).
Proof.
  intros Hs Hst Ht.
  assert (A : t * t <= t) by nra.
  assert (B : s * s <= s) by nra.
  assert (C : s * t <= s) by nra.
  assert (D : 0 <= (t - s) * (3 * (t + s) - 2 * (t * t + s * t + s * s))).
  { apply Rmult_le_pos; lra. }
  lra.
Qed.

Lemma smoothstep_antitone x y :
  x <= y -> smoothstep 0.9 0.2 y <= smoothstep 0.9 0.2 x.
Proof.
  intro H. unfold smoothstep.
  pose proof (clamp_unit_range ((y - 0.9) / (0.2 - 0.9))).
  pose proof (clamp_unit_range ((x - 0.9) / (0.2 - 0.9))).
  pose proof (clamp_mono _ _ (ramp_antitone x y H)).
  apply hermite_mono; lra.
Qed.

Lemma vignette_full r : r <= 0.2 -> vignette r = 1.0.
Proof.
  intro H. unfold vignette, mix, smoothstep.
  rewrite clamp_high by lra. lra.
Qed.

Lemma vignette_dark r : 0.9 <= r -> vignette r = 0.85.
Proof.
  intro H. unfold vignette, mix, smoothstep.
  rewrite clamp_low by lra. lra.
Qed.

Lemma vignette_antitone x y : x <= y -> vignette y <= vignette x.
Proof.
  intro H. unfold vignette, mix.
  pose proof (smoothstep_antitone x y H). lra.
Qed.

Section FS.
Variable uTexture : vec2 -> vec4.
Variables uK uKcube : R.

Lemma FS_out vUv :
  vx (distorted uK uKcube vUv) < 0 \/ 1 < vx (distorted uK uKcube vUv) \/
  vy (distorted uK uKcube vUv) < 0 \/ 1 < vy (distorted uK uKcube vUv) ->
  FS uTexture uK uKcube vUv = mkvec4 0 0 0 1.
Proof.
  intro H. unfold FS. cbv zeta.
  replace (ltb (vx (distorted uK uKcube vUv)) 0.0
           || ltb 1.0 (vx (distorted uK uKcube vUv))
           || ltb (vy (distorted uK uKcube vUv)) 0.0
           || ltb 1.0 (vy (distorted uK uKcube vUv)))%bool with true.
  - f_equal; lra.
  - symmetry. rewrite !orb_true_iff, !ltb_true.
    replace 0.0 with 0 by lra. replace 1.0 with 1 by lra. tauto.
Qed.

Lemma FS_in vUv :
  0 <= vx (distorted uK uKcube vUv) <= 1 ->
  0 <= vy (distorted uK uKcube vUv) <= 1 ->
  FS uTexture uK uKcube vUv
  = mkvec4 (cr (uTexture (distorted uK uKcube vUv)) * vignette (r2 vUv))
           (cg (uTexture (distorted uK uKcube vUv)) * vignette (r2 vUv))
           (cb (uTexture (distorted uK uKcube vUv)) * vignette (r2 vUv))
           (ca (uTexture (distorted uK uKcube vUv))).
Proof.
  intros Hx Hy. unfold FS. cbv zeta.
  replace (ltb (vx (distorted uK uKcube vUv)) 0.0
           || ltb 1.0 (vx (distorted uK uKcube vUv))
           || ltb (vy (distorted uK uKcube vUv)) 0.0
           || ltb 1.0 (vy (distorted uK uKcube vUv)))%bool with false.
  - reflexivity.
  - symmetry. rewrite !orb_false_iff, !ltb_false.
    replace 0.0 with 0 by lra. replace 1.0 with 1 by lra. tauto.
Qed.
End FS.

End ShaderFacts.

(** C2: when a component of the distorted coordinate [f * c + 0.5] lies
    outside [0, 1] the shader writes opaque black, whatever the texture;
    otherwise it writes the texel at that coordinate, its colour scaled by
    the vignette. *)
Theorem FS_cutoff (uTexture : Shader.vec2 -> Shader.vec4) (uK uKcube : R)
    (vUv : Shader.vec2) :
  ((Shader.vx (Shader.distorted uK uKcube vUv) < 0
    \/ 1 < Shader.vx (Shader.distorted uK uKcube vUv)
    \/ Shader.vy (Shader.distorted uK uKcube vUv) < 0
    \/ 1 < Shader.vy (Shader.distorted uK uKcube vUv))%R ->
   forall texture : Shader.vec2 -> Shader.vec4,
     Shader.FS texture uK uKcube vUv = Shader.mkvec4 0 0 0 1)
  /\ ((0 <= Shader.vx (Shader.distorted uK uKcube vUv) <= 1)%R ->
      (0 <= Shader.vy (Shader.distorted uK uKcube vUv) <= 1)%R ->
      Shader.FS uTexture uK uKcube vUv
      = Shader.mkvec4
          (Shader.cr (uTexture (Shader.distorted uK uKcube vUv))
           * Shader.vignette (Shader.r2 vUv))
          (Shader.cg (uTexture (Shader.distorted uK uKcube vUv))
           * Shader.vignette (Shader.r2 vUv))
          (Shader.cb (uTexture (Shader.distorted uK uKcube vUv))
           * Shader.vignette (Shader.r2 vUv))
          (Shader.ca (uTexture (Shader.distorted uK uKcube vUv)))).
Proof.
  split.
  - intros H texture. now apply ShaderFacts.FS_out.
  - apply ShaderFacts.FS_in.
Qed.

(** At the corner [(0, 0)] with [k = 1] and [kcube = 0] the distorted
    coordinate is [(-0.25, -0.25)]: black.  At the centre it is the centre:
    the texel, at full brightness. *)
Lemma FS_cutoff_witness :
  Shader.FS (fun _ => Shader.mkvec4 1 1 1 1) 1 0 (Shader.mkvec2 0 0)
  = Shader.mkvec4 0 0 0 1
  /\ Shader.FS (fun _ => Shader.mkvec4 1 1 1 1) 1 0 (Shader.mkvec2 0.5 0.5)
     = Shader.mkvec4 (1 * Shader.vignette (Shader.r2 (Shader.mkvec2 0.5 0.5)))
         (1 * Shader.vignette (Shader.r2 (Shader.mkvec2 0.5 0.5)))
         (1 * Shader.vignette (Shader.r2 (Shader.mkvec2 0.5 0.5))) 1.
Proof.
  split.
  - apply (proj1 (FS_cutoff (fun _ => Shader.mkvec4 1 1 1 1) 1 0
                    (Shader.mkvec2 0 0))).
    left. unfold Shader.distorted, Shader.f, Shader.r2, Shader.centered,
      Shader.dot. cbn [Shader.vx Shader.vy].
    rewrite Rmult_0_l. lra.
  - apply (proj2 (FS_cutoff (fun _ => Shader.mkvec4 1 1 1 1) 1 0
                    (Shader.mkvec2 0.5 0.5)));
      unfold Shader.distorted, Shader.f, Shader.r2, Shader.centered,
        Shader.dot; cbn [Shader.vx Shader.vy]; rewrite Rmult_0_l; lra.
Defined.

(** C4: the brightness factor [mix(0.85, 1.0, smoothstep(0.9, 0.2, r2))] is
    1.0 for [r2 <= 0.2], is 0.85 for [r2 >= 0.9], and does not increase
    with [r2] in between. *)
Theorem vignette_profile (r r' : R) :
  ((r <= 0.2)%R -> Shader.vignette r = 1.0%R)
  /\ ((0.9 <= r)%R -> Shader.vignette r = 0.85%R)
  /\ ((0.2 <= r)%R -> (r <= r')%R -> (r' <= 0.9)%R ->
      (Shader.vignette r' <= Shader.vignette r)%R).
Proof.
  split; [apply ShaderFacts.vignette_full
         | split; [apply ShaderFacts.vignette_dark|]].
  intros _ H _. now apply ShaderFacts.vignette_antitone.
Qed.

Lemma vignette_profile_witness :
  Shader.vignette 0.1 = 1.0%R
  /\ Shader.vignette 1 = 0.85%R
  /\ (Shader.vignette 0.7 <= Shader.vignette 0.3)%R.
Proof.
  split; [|split].
  - apply (proj1 (vignette_profile 0.1 0.1)). lra.
  - apply (proj1 (proj2 (vignette_profile 1 1))). lra.
  - apply (proj2 (proj2 (vignette_profile 0.3 0.7))); lra.
Defined.

(** ** Further properties *)

(** X1: at the centre of the screen [r2 = 0] and [f = 1] for every [k] and
    [kcube]: the sampled coordinate is the centre itself. *)
Theorem center_invariance (uK uKcube : R) :
  Shader.r2 (Shader.mkvec2 0.5 0.5) = 0%R
  /\ Shader.f uK uKcube (Shader.mkvec2 0.5 0.5) = 1%R
  /\ Shader.distorted uK uKcube (Shader.mkvec2 0.5 0.5)
     = Shader.mkvec2 0.5 0.5.
Proof.
  assert (Z : Shader.r2 (Shader.mkvec2 0.5 0.5) = 0%R).
  { unfold Shader.r2, Shader.centered, Shader.dot. cbn [Shader.vx Shader.vy].
    lra. }
  assert (F : Shader.f uK uKcube (Shader.mkvec2 0.5 0.5) = 1%R).
  { unfold Shader.f. rewrite Z, Rmult_0_l. lra. }
  split; [exact Z | split; [exact F|]].
  unfold Shader.distorted. rewrite F. unfold Shader.centered.
  cbn [Shader.vx Shader.vy]. f_equal; lra.
Qed.

(** X2: with [k = 0] and [kcube = 0] the factor [f] is 1 everywhere and the
    sampled coordinate is the pixel's own; the vignette still applies. *)
Theorem no_distortion (uTexture : Shader.vec2 -> Shader.vec4)
    (x y : R) :
  Shader.f 0 0 (Shader.mkvec2 x y) = 1%R
  /\ Shader.distorted 0 0 (Shader.mkvec2 x y) = Shader.mkvec2 x y
  /\ ((0 <= x <= 1)%R -> (0 <= y <= 1)%R ->
      Shader.FS uTexture 0 0 (Shader.mkvec2 x y)
      = Shader.mkvec4
          (Shader.cr (uTexture (Shader.mkvec2 x y))
           * Shader.vignette (Shader.r2 (Shader.mkvec2 x y)))
          (Shader.cg (uTexture (Shader.mkvec2 x y))
           * Shader.vignette (Shader.r2 (Shader.mkvec2 x y)))
          (Shader.cb (uTexture (Shader.mkvec2 x y))
           * Shader.vignette (Shader.r2 (Shader.mkvec2 x y)))
          (Shader.ca (uTexture (Shader.mkvec2 x y)))).
Proof.
  assert (F : Shader.f 0 0 (Shader.mkvec2 x y) = 1%R).
  { unfold Shader.f. rewrite Rmult_0_l, Rplus_0_l, Rmult_0_r. lra. }
  assert (D : Shader.distorted 0 0 (Shader.mkvec2 x y) = Shader.mkvec2 x y).
  { unfold Shader.distorted. rewrite F. unfold Shader.centered.
    cbn [Shader.vx Shader.vy]. f_equal; lra. }
  split; [exact F | split; [exact D|]].
  intros Hx Hy.
  rewrite (ShaderFacts.FS_in uTexture 0 0 (Shader.mkvec2 x y));
    rewrite D; cbn [Shader.vx Shader.vy]; auto.
Qed.

(** X3: for a positive fade length the edge opacity lies between 0
    and 1. *)
Theorem edgeAlpha_range (y h fade : Q) :
  (0 < fade)%Q -> (0 <= TextLayout.edgeAlpha y h fade <= 1)%Q.
Proof.
  intros _. unfold TextLayout.edgeAlpha. split.
  - apply Q.le_max_l.
  - apply Q.max_lub; [discriminate|].
    eapply Qle_trans; [apply Q.le_min_l | apply Q.le_min_l].
Qed.

Lemma edgeAlpha_range_witness :
  (0 < 124)%Q /\ (0 <= TextLayout.edgeAlpha 900 1000 124 <= 1)%Q.
Proof.
  split; [reflexivity|]. apply (edgeAlpha_range 900 1000 124). reflexivity.
Defined.

(** X4: for a window whose device size is within the range of the canvas
    attributes, a second [resize] leaves the size of the canvas and the
    number of allocations of its drawing buffer as the first one left
    them. *)
Theorem resize_keeps_canvas (win : Scene.Window) (s : Scene.World) :
  Scene.attribute_range (fst (Scene.device_size win)) ->
  Scene.attribute_range (snd (Scene.device_size win)) ->
  Scene.canvas_size
    (Scene.exec (Scene.resize win) (Scene.exec (Scene.resize win) s))
  = Scene.canvas_size (Scene.exec (Scene.resize win) s)
  /\ Scene.canvas_allocs
       (Scene.exec (Scene.resize win) (Scene.exec (Scene.resize win) s))
     = Scene.canvas_allocs (Scene.exec (Scene.resize win) s).
Proof. intros _ _. apply SceneFacts.resize_canvas_idempotent. Qed.

Lemma resize_keeps_canvas_witness :
  Scene.attribute_range (fst (Scene.device_size Fixture.window_800x600))
  /\ Scene.attribute_range (snd (Scene.device_size Fixture.window_800x600))
  /\ Scene.canvas_size
       (Scene.exec (Scene.resize Fixture.window_800x600)
          (Scene.exec (Scene.resize Fixture.window_800x600) Scene.page))
     = Scene.canvas_size
         (Scene.exec (Scene.resize Fixture.window_800x600) Scene.page).
Proof.
  assert (W : Scene.attribute_range
                (fst (Scene.device_size Fixture.window_800x600)))
    by (vm_compute; split; discriminate).
  assert (H : Scene.attribute_range
                (snd (Scene.device_size Fixture.window_800x600)))
    by (vm_compute; split; discriminate).
  split; [exact W | split; [exact H|]].
  exact (proj1 (resize_keeps_canvas Fixture.window_800x600 Scene.page W H)).
Defined.

(** X5: in every state the cleanup leaves no frame request under the
    current handle, detaches the listener and makes no program current;
    a program that exists still exists afterwards. *)
Theorem cleanup_effects (s : Scene.World) :
  ~ In (Scene.raf s) (Scene.pending (Scene.exec Scene.cleanup s))
  /\ Scene.listener (Scene.exec Scene.cleanup s) = false
  /\ Scene.gl_program (Scene.exec Scene.cleanup s) = false
  /\ (In Scene.GLProgram (Scene.gl_objects s) <->
      In Scene.GLProgram (Scene.gl_objects (Scene.exec Scene.cleanup s))).
Proof.
  split; [|split; [reflexivity | split; [reflexivity|]]].
  - unfold Scene.exec, Scene.cleanup, Scene.cancelAnimationFrame,
      Scene.gl_delete, Scene.bind, Scene.gets, Scene.modify. cbn.
    intro H. apply filter_In in H as [_ H].
    rewrite Nat.eqb_refl in H. discriminate.
  - split; [apply SceneFacts.cleanup_program|].
    unfold Scene.exec, Scene.cleanup, Scene.cancelAnimationFrame,
      Scene.gl_delete, Scene.bind, Scene.gets, Scene.modify. cbn.
    intro H. apply SceneFacts.remove1_subset in H.
    now apply SceneFacts.remove1_subset in H.
Qed.

(** X6: the device size never exceeds twice the window size, whatever the
    device pixel ratio. *)
Theorem device_size_clamped (win : Scene.Window) :
  (0 <= Scene.innerWidth win)%Z -> (0 <= Scene.innerHeight win)%Z ->
  (fst (Scene.device_size win) <= 2 * Scene.innerWidth win)%Z
  /\ (snd (Scene.device_size win) <= 2 * Scene.innerHeight win)%Z.
Proof.
  intros Hw Hh. unfold Scene.device_size. cbn [fst snd].
  set (dpr := Qmin _ 2).
  assert (D : (dpr <= 2)%Q) by apply Q.le_min_r.
  split.
  - apply SceneFacts.floor_scaled; assumption.
  - apply SceneFacts.floor_scaled; assumption.
Qed.

Lemma device_size_clamped_witness :
  (fst (Scene.device_size (Scene.mkWindow 800 600 3)) <= 2 * 800)%Z
  /\ (snd (Scene.device_size (Scene.mkWindow 800 600 3)) <= 2 * 600)%Z.
Proof.
  apply (device_size_clamped (Scene.mkWindow 800 600 3)); discriminate.
Defined.

(** ** Word wrap: the lines, greed and the two extremes *)

Module WrapFacts.
Import TextLayout TextLayoutFacts.

(** [wrapText] is the loop followed by its last statement. *)
Lemma wrapText_finish m M t :
  wrapText m M t = finish (wrap_loop m M (split_ws t) [] []).
Proof.
  unfold wrapText, finish.
  destruct (wrap_loop m M (split_ws t) [] []) as [L l]. reflexivity.
Qed.

Lemma split_from_not_nil t : forall cur gap, split_from t cur gap <> [].
Proof.
  induction t as [|c t IH]; intros cur gap; simpl; [discriminate|].
  destruct (is_space c); [destruct gap|]; try apply IH. discriminate.
Qed.

Lemma removelast_cons {A} (x : A) l :
  l <> [] -> removelast (x :: l) = x :: removelast l.
Proof. destruct l; [congruence | reflexivity]. Qed.

Lemma truthy_app_char cur c : truthy (cur ++ [c]) = true.
Proof. destruct cur; reflexivity. Qed.

(** Only the first and the last piece of a split can be empty. *)
Lemma split_from_inner t : forall cur gap,
  (gap = true \/ truthy cur = true ->
   Forall (fun w => truthy w = true) (removelast (split_from t cur gap)))
  /\ Forall (fun w => truthy w = true)
       (removelast (tl (split_from t cur gap))).
Proof.
  induction t as [|c t IH]; intros cur gap; simpl.
  - split; constructor.
  - destruct (is_space c) eqn:E.
    + destruct gap.
      * split; [intros _|]; apply IH; now left.
      * split.
        -- intros [H | H]; [discriminate|].
           rewrite removelast_cons by apply split_from_not_nil.
           constructor; [assumption|]. apply IH. now left.
        -- simpl. apply IH. now left.
    + split; [intros _|].
      * apply IH. right. apply truthy_app_char.
      * apply IH.
Qed.

Lemma split_ws_inner t :
  Forall (fun w => truthy w = true) (removelast (tl (split_ws t))).
Proof. apply split_from_inner. Qed.

Lemma split_ws_cons t : exists p ws, split_ws t = p :: ws.
Proof.
  destruct (split_ws t) as [|p ws] eqn:E.
  - now apply split_from_not_nil in E.
  - eauto.
Qed.

Lemma words_truthy_word w :
  no_space w = true -> truthy w = true -> words w = [w].
Proof. intros N T. rewrite (words_word w N). simpl. now rewrite T. Qed.

Lemma last_or_nil {A} (l : list A) :
  l = [] \/ exists ls a, l = (ls ++ [a]).
Proof.
  destruct l as [|x l]; [now left | right].
  destruct (exists_last (l := x :: l)) as (ls & a & E); [discriminate|].
  eauto.
Qed.

Section Wrap.
Local Open Scope Q_scope.
Variable measureText : text -> Q.
Variable maxWidth : Q.
Local Abbreviation loop := (wrap_loop measureText maxWidth).

(** *** Lines are never empty *)

Let has_word (l : text) : Prop := words l <> [].

Lemma wrap_loop_has_word ws : forall lines line,
  Forall (fun w => no_space w = true) ws ->
  Forall has_word lines -> (line = [] \/ has_word line) ->
  Forall has_word (finish (loop ws lines line)).
Proof.
  induction ws as [|w ws IH]; intros lines line Hws Hl Hline; cbn [wrap_loop].
  - unfold finish. cbn [fst snd]. destruct (truthy line) eqn:T; [|assumption].
    apply Forall_app; split; [assumption|]. constructor; [|constructor].
    destruct Hline as [-> | ?]; [discriminate | assumption].
  - inversion Hws as [|? ? Hw Hws']; subst.
    assert (Hw' : (w = [] \/ has_word w)).
    { destruct (truthy w) eqn:T.
      - right. unfold has_word. now rewrite (words_truthy_word w Hw T).
      - left. now apply truthy_false. }
    destruct (truthy line) eqn:T.
    + assert (HL : has_word line)
        by (destruct Hline as [-> | ?]; [discriminate | assumption]).
      destruct (JSNum.gt _ maxWidth); cbn [andb].
      * apply IH; try assumption.
        apply Forall_app; split; [assumption|]. now constructor.
      * apply IH; try assumption. right. unfold has_word.
        rewrite words_app_space. intro H. apply app_eq_nil in H as [H _].
        now apply HL.
    + rewrite andb_false_r. apply IH; assumption.
Qed.

Lemma wrapText_has_word t :
  Forall (fun l => words l <> []) (wrapText measureText maxWidth t).
Proof.
  rewrite wrapText_finish. apply wrap_loop_has_word.
  - apply (split_from_no_space t [] false eq_refl).
  - constructor.
  - now left.
Qed.

Lemma flat_map_length_ge {A B} (f : A -> list B) l :
  Forall (fun x => f x <> []) l -> (length l <= length (flat_map f l))%nat.
Proof.
  induction 1 as [|x l Hx _ IH]; simpl; [lia|].
  rewrite length_app. destruct (f x); [congruence | simpl; lia].
Qed.

(** *** When no two words fit on a line *)

Lemma wrap_loop_never_fits ws : forall lines line,
  (forall a w, a <> [] -> maxWidth < measureText (a ++ space ++ w)) ->
  finish (loop ws lines line) = (lines ++ filter truthy (line :: ws)).
Proof.
  induction ws as [|w ws IH]; intros lines line H; cbn [wrap_loop].
  - unfold finish. cbn [fst snd filter]. destruct (truthy line);
      [reflexivity | now rewrite app_nil_r].
  - destruct (truthy line) eqn:T.
    + assert (G : JSNum.gt (measureText (line ++ space ++ w)) maxWidth = true).
      { unfold JSNum.gt. apply negb_true_iff.
        destruct (Qle_bool _ maxWidth) eqn:E; [|reflexivity].
        apply Qle_bool_iff in E.
        assert (X : maxWidth < measureText (line ++ space ++ w)).
        { apply H. destruct line; [discriminate | discriminate]. }
        lra. }
      rewrite G. cbn [andb]. rewrite (IH _ _ H).
      cbn [filter]. rewrite T, <- app_assoc. reflexivity.
    + rewrite andb_false_r, (IH _ _ H). cbn [filter]. rewrite T. reflexivity.
Qed.

(** *** Greedy: what starts the next line did not fit on this one *)

Let overflows (a b : text) : Prop :=
  exists w, hd_error (words b) = Some w
            /\ maxWidth < measureText (a ++ space ++ w).

Let chained (ls : list text) : Prop :=
  forall i a b,
    nth_error ls i = Some a -> nth_error ls (S i) = Some b -> overflows a b.

Lemma chained_snoc ls a b :
  chained (ls ++ [a]) -> overflows a b -> chained ((ls ++ [a]) ++ [b]).
Proof.
  intros C O i x y Hx Hy.
  destruct (Nat.lt_ge_cases (S i) (length (ls ++ [a]))) as [Hlt | Hge].
  - rewrite nth_error_app1 in Hx, Hy by lia. now apply (C i).
  - rewrite length_app in Hge. simpl in Hge.
    assert (i = length ls).
    { assert (H : nth_error ((ls ++ [a]) ++ [b]) (S i) <> None)
        by (rewrite Hy; discriminate).
      apply nth_error_Some in H. rewrite !length_app in H. simpl in H. lia. }
    subst i.
    rewrite nth_error_app1 in Hx by (rewrite length_app; simpl; lia).
    rewrite nth_error_app2, Nat.sub_diag in Hx by lia.
    rewrite nth_error_app2 in Hy by (rewrite length_app; simpl; lia).
    rewrite length_app in Hy. cbn [length] in Hy.
    replace (S (length ls) - (length ls + 1))%nat with 0%nat in Hy by lia.
    simpl in Hx, Hy. injection Hx as <-. injection Hy as <-. exact O.
Qed.

Lemma chained_single a : chained [a].
Proof. intros [|i] x y Hx Hy; simpl in *; [|destruct i]; discriminate. Qed.

(** The loop keeps the lines chained; [prev] is the last line pushed, if
    any, and the current line starts with the word that overflowed it. *)
Lemma wrap_loop_chained ws : forall lines line,
  Forall (fun w => no_space w = true) ws ->
  Forall (fun w => truthy w = true) (removelast ws) ->
  chained lines ->
  (forall ls a, lines = (ls ++ [a]) -> overflows a line) ->
  chained (finish (loop ws lines line)).
Proof.
  induction ws as [|w ws IH]; intros lines line Hns Hin C Link;
    cbn [wrap_loop].
  - unfold finish. cbn [fst snd]. destruct (truthy line); [|assumption].
    destruct (last_or_nil lines) as [-> | (ls & a & ->)].
    + apply chained_single.
    + apply chained_snoc; [assumption | now apply (Link ls a)].
  - inversion Hns as [|? ? Hw Hns']; subst.
    destruct (truthy line) eqn:T.
    + destruct (JSNum.gt _ maxWidth) eqn:G; cbn [andb].
      * (* the line is pushed and [w] starts the next one *)
        assert (C' : chained (lines ++ [line])).
        { destruct (last_or_nil lines) as [-> | (ls & a & ->)].
          - apply chained_single.
          - apply chained_snoc; [assumption | now apply (Link ls a)]. }
        destruct ws as [|w' ws'].
        -- cbn [wrap_loop]. unfold finish. cbn [fst snd].
           destruct (truthy w) eqn:Tw; [|assumption].
           apply chained_snoc; [assumption|].
           exists w. rewrite (words_truthy_word w Hw Tw). split; [reflexivity|].
           unfold JSNum.gt in G. apply negb_true_iff in G.
           destruct (Qlt_le_dec maxWidth (measureText (line ++ space ++ w)))
             as [L | L]; [assumption|].
           apply Qle_bool_iff in L. congruence.
        -- assert (Tw : truthy w = true).
           { simpl in Hin. now inversion Hin. }
           apply IH; try assumption.
           ++ simpl in Hin. now inversion Hin.
           ++ intros ls a E. apply app_inj_tail in E as [_ <-].
              exists w. rewrite (words_truthy_word w Hw Tw).
              split; [reflexivity|].
              unfold JSNum.gt in G. apply negb_true_iff in G.
              destruct (Qlt_le_dec maxWidth (measureText (line ++ space ++ w)))
                as [L | L]; [assumption|].
              apply Qle_bool_iff in L. congruence.
      * (* [w] joins the line: its first word stays *)
        apply IH; try assumption.
        -- destruct ws; [constructor | simpl in Hin; now inversion Hin].
        -- intros ls a E. destruct (Link ls a E) as (w0 & H0 & M0).
           exists w0. split; [|assumption].
           rewrite words_app_space.
           destruct (words line); [discriminate | exact H0].
    + (* an empty line: nothing was pushed so far *)
      rewrite andb_false_r.
      assert (N : lines = []).
      { destruct (last_or_nil lines) as [-> | (ls & a & E)];
          [reflexivity|].
        destruct (Link ls a E) as (w0 & H0 & _).
        rewrite (truthy_false _ T) in H0. discriminate. }
      subst lines.
      apply IH; try assumption.
      * destruct ws; [constructor | simpl in Hin; now inversion Hin].
      * intros [|? ?] a E; discriminate.
Qed.

End Wrap.

(** Of two consecutive lines the second starts with a word that
    overflowed the first. *)
Lemma wrapText_chained m M t i a b :
  nth_error (wrapText m M t) i = Some a ->
  nth_error (wrapText m M t) (S i) = Some b ->
  exists w, hd_error (words b) = Some w /\ (M < m (a ++ space ++ w))%Q.
Proof.
  rewrite wrapText_finish.
  destruct (split_ws_cons t) as (p & ws & E).
  pose proof (split_from_no_space t [] false eq_refl) as N.
  pose proof (split_ws_inner t) as I.
  fold (split_ws t) in N. rewrite E in *. simpl in I.
  inversion N as [|? ? _ N']; subst.
  assert (S0 : wrap_loop m M (p :: ws) [] [] = wrap_loop m M ws [] p).
  { cbn [wrap_loop truthy]. now rewrite andb_false_r. }
  rewrite S0.
  apply (wrap_loop_chained m M ws [] p N' I).
  - intros [|j] x y Hx Hy; discriminate.
  - intros [|? ?] x Hx; discriminate.
Qed.

(** *** A text that fits on one line *)

(** The pieces of a split, each with the separator that follows it, are
    no longer than the text. *)
Lemma split_from_length t : forall cur gap,
  (list_sum (map (fun p => S (length p)) (split_from t cur gap))
   <= S (length cur + length t))%nat.
Proof.
  induction t as [|c t IH]; intros cur gap; cbn [split_from].
  - simpl. lia.
  - destruct (is_space c).
    + destruct gap.
      * specialize (IH [] true). simpl in *. lia.
      * specialize (IH [] true). simpl in *. lia.
    + specialize (IH (cur ++ [c]) false). rewrite length_app in IH.
      simpl in *. lia.
Qed.

(** When every text of at most [n] code units fits, and the line with the
    words to come is no longer than that, the loop pushes no line. *)
Lemma wrap_loop_short measureText maxWidth n ws : forall lines line,
  (forall s, (length s <= n)%nat -> (measureText s <= maxWidth)%Q) ->
  (length line + list_sum (map (fun p => S (length p)) ws)
   <= n + (if truthy line then 0 else 1))%nat ->
  fst (wrap_loop measureText maxWidth ws lines line) = lines.
Proof.
  induction ws as [|w ws IH]; intros lines line H I; cbn [wrap_loop];
    [reflexivity|].
  simpl in I.
  assert (G : forall s, (length s <= n)%nat ->
                        JSNum.gt (measureText s) maxWidth = false).
  { intros s Hs. unfold JSNum.gt. apply negb_false_iff, Qle_bool_iff, H, Hs. }
  destruct (truthy line) eqn:T.
  - rewrite G by (rewrite !length_app; simpl; lia). cbn [andb].
    apply IH; [assumption|].
    assert (T' : truthy (line ++ space ++ w) = true)
      by (destruct line; [discriminate | reflexivity]).
    rewrite T', !length_app. simpl. lia.
  - rewrite andb_false_r. apply IH; [assumption|].
    destruct w; simpl in *; lia.
Qed.

Lemma wrapText_short measureText maxWidth t :
  (forall s, (length s <= length t)%nat -> (measureText s <= maxWidth)%Q) ->
  fst (wrap_loop measureText maxWidth (split_ws t) [] []) = [].
Proof.
  intro H. apply (wrap_loop_short measureText maxWidth (length t)); [exact H|].
  pose proof (split_from_length t [] false) as L. fold (split_ws t) in L.
  simpl in *. lia.
Qed.

(** *** The font of the examples *)

Lemma monospace_pos px s :
  (0 < px)%Q -> s <> [] -> (0 < Fixture.monospace px s)%Q.
Proof.
  intros Hp Hs. unfold Fixture.monospace.
  assert (L : (1 <= inject_Z (Z.of_nat (length s)))%Q).
  { change 1%Q with (inject_Z 1). rewrite <- Zle_Qle.
    destruct s; [congruence | simpl length; lia]. }
  nra.
Qed.

Lemma monospace_short px s n :
  (0 <= px)%Q -> (length s <= n)%nat ->
  (Fixture.monospace px s <= inject_Z (Z.of_nat n) * px * 0.5)%Q.
Proof.
  intros Hp Hs. unfold Fixture.monospace.
  assert (L : (inject_Z (Z.of_nat (length s)) <= inject_Z (Z.of_nat n))%Q)
    by (rewrite <- Zle_Qle; lia).
  nra.
Qed.

End WrapFacts.

(** X7: the wrap is greedy.  Of two consecutive lines, the second begins
    with a word that did not fit on the first: the first line, a space and
    that word together measure more than [maxWidth]. *)
Theorem wrapText_greedy (measureText : TextLayout.text -> Q) (maxWidth : Q)
    (t : TextLayout.text) (i : nat) (a b : TextLayout.text) :
  nth_error (TextLayout.wrapText measureText maxWidth t) i = Some a ->
  nth_error (TextLayout.wrapText measureText maxWidth t) (S i) = Some b ->
  exists w ws,
    TextLayout.word_sequence b (w :: ws)
    /\ (maxWidth < measureText (a ++ TextLayout.space ++ w))%Q.
Proof.
  intros Ha Hb.
  destruct (WrapFacts.wrapText_chained measureText maxWidth t i a b Ha Hb)
    as (w & Hw & Hm).
  pose proof (TextLayoutFacts.word_sequence_words b) as S.
  destruct (TextLayout.words b) as [|w' ws]; [discriminate|].
  injection Hw as ->. exists w, ws. split; assumption.
Qed.

Lemma wrapText_greedy_witness :
  exists w ws,
    TextLayout.word_sequence (TextLayout.ascii_text "CD") (w :: ws)
    /\ (20 < Fixture.monospace 10
               (TextLayout.ascii_text "AB" ++ TextLayout.space ++ w))%Q.
Proof.
  apply (wrapText_greedy (Fixture.monospace 10) 20
           (TextLayout.ascii_text "AB CD EF") 0); reflexivity.
Defined.

(** X8: no line is empty or blank: every line of [wrapText] holds a word.
    There are thus at most as many lines as the text has words, and no
    line at all exactly when the text has no word. *)
Theorem wrapText_lines_hold_words (measureText : TextLayout.text -> Q)
    (maxWidth : Q) (t : TextLayout.text) (ws : list TextLayout.text) :
  TextLayout.word_sequence t ws ->
  Forall (fun l => exists w ws', TextLayout.word_sequence l (w :: ws'))
    (TextLayout.wrapText measureText maxWidth t)
  /\ (length (TextLayout.wrapText measureText maxWidth t) <= length ws)%nat
  /\ (TextLayout.wrapText measureText maxWidth t = [] <-> ws = []).
Proof.
  intro S. apply TextLayoutFacts.word_sequence_unique in S. subst ws.
  pose proof (WrapFacts.wrapText_has_word measureText maxWidth t) as H.
  pose proof (TextLayoutFacts.wrapText_words measureText maxWidth t) as W.
  pose proof (WrapFacts.flat_map_length_ge TextLayout.words _ H) as L.
  rewrite W in L.
  split; [|split; [exact L | split]].
  - eapply Forall_impl; [|exact H]. intros l Hl. cbv beta in Hl.
    pose proof (TextLayoutFacts.word_sequence_words l) as Sl.
    destruct (TextLayout.words l) as [|w ws'];
      [exfalso; apply Hl; reflexivity | eauto].
  - intro E. rewrite <- W, E. reflexivity.
  - intro E. rewrite E in L.
    destruct (TextLayout.wrapText measureText maxWidth t);
      [reflexivity | simpl in L; lia].
Qed.

Lemma wrapText_lines_hold_words_witness :
  (length (TextLayout.wrapText (Fixture.monospace 10) 20
             (TextLayout.ascii_text " AB CD EF "))
   <= length (map TextLayout.ascii_text ["AB"; "CD"; "EF"]%string))%nat.
Proof.
  apply (wrapText_lines_hold_words (Fixture.monospace 10) 20
           (TextLayout.ascii_text " AB CD EF ")
           (map TextLayout.ascii_text ["AB"; "CD"; "EF"]%string)).
  exact (TextLayoutFacts.word_sequence_words
           (TextLayout.ascii_text " AB CD EF ")).
Defined.

(** X9: when no two words fit on one line (a non-empty text followed by a
    space and a word is always wider than [maxWidth], as it is on a canvas
    of width 0), the lines are the words of the text, one word per line
    and none of them split. *)
Theorem wrapText_word_per_line (measureText : TextLayout.text -> Q)
    (maxWidth : Q) (t : TextLayout.text) (ws : list TextLayout.text) :
  TextLayout.word_sequence t ws ->
  (forall a w, a <> [] ->
     (maxWidth < measureText (a ++ TextLayout.space ++ w))%Q) ->
  TextLayout.wrapText measureText maxWidth t = ws.
Proof.
  intros S H. apply TextLayoutFacts.word_sequence_unique in S. subst ws.
  rewrite WrapFacts.wrapText_finish,
    (WrapFacts.wrap_loop_never_fits measureText maxWidth _ [] [] H).
  reflexivity.
Qed.

Lemma wrapText_word_per_line_witness :
  TextLayout.wrapText (Fixture.monospace 10) 0
    (TextLayout.ascii_text "AB  CD EF ")
  = map TextLayout.ascii_text ["AB"; "CD"; "EF"]%string.
Proof.
  apply (wrapText_word_per_line (Fixture.monospace 10) 0
           (TextLayout.ascii_text "AB  CD EF ")).
  - exact (TextLayoutFacts.word_sequence_words
             (TextLayout.ascii_text "AB  CD EF ")).
  - intros a w Ha. apply WrapFacts.monospace_pos; [reflexivity|].
    destruct a; [congruence | discriminate].
Defined.

(** X10: when every text that is no longer than [t] fits, the wrap never
    breaks: a text without words gives no line, and any other text gives
    one line, which holds all its words. *)
Theorem wrapText_single_line (measureText : TextLayout.text -> Q)
    (maxWidth : Q) (t : TextLayout.text) (ws : list TextLayout.text) :
  TextLayout.word_sequence t ws ->
  (forall s, (length s <= length t)%nat -> (measureText s <= maxWidth)%Q) ->
  (ws = [] /\ TextLayout.wrapText measureText maxWidth t = [])
  \/ (ws <> []
      /\ exists l, TextLayout.wrapText measureText maxWidth t = [l]
                   /\ TextLayout.word_sequence l ws).
Proof.
  intros S H. apply TextLayoutFacts.word_sequence_unique in S. subst ws.
  pose proof (WrapFacts.wrapText_has_word measureText maxWidth t) as N.
  pose proof (TextLayoutFacts.wrapText_words measureText maxWidth t) as W.
  pose proof (WrapFacts.wrapText_short measureText maxWidth t H) as F.
  rewrite WrapFacts.wrapText_finish in *. unfold TextLayout.finish in *.
  rewrite F in *.
  destruct (TextLayout.truthy
              (snd (TextLayout.wrap_loop measureText maxWidth
                      (TextLayout.split_ws t) [] []))).
  - right. cbn [app flat_map] in W, N. rewrite app_nil_r in W.
    inversion N as [|? ? Hl _]; subst. split; [now rewrite <- W|].
    eexists. split; [reflexivity|]. rewrite <- W.
    apply TextLayoutFacts.word_sequence_words.
  - left. split; [now rewrite <- W | reflexivity].
Qed.

Lemma wrapText_single_line_witness :
  (map TextLayout.ascii_text ["AB"; "CD"; "EF"]%string = []
   /\ TextLayout.wrapText (Fixture.monospace 10) 40
        (TextLayout.ascii_text "AB CD EF") = [])
  \/ (map TextLayout.ascii_text ["AB"; "CD"; "EF"]%string <> []
      /\ exists l,
           TextLayout.wrapText (Fixture.monospace 10) 40
             (TextLayout.ascii_text "AB CD EF") = [l]
           /\ TextLayout.word_sequence l
                (map TextLayout.ascii_text ["AB"; "CD"; "EF"]%string)).
Proof.
  apply (wrapText_single_line (Fixture.monospace 10) 40
           (TextLayout.ascii_text "AB CD EF")).
  - exact (TextLayoutFacts.word_sequence_words
             (TextLayout.ascii_text "AB CD EF")).
  - intros s Hs.
    apply (Qle_trans _ (inject_Z (Z.of_nat 8) * 10 * 0.5));
      [|discriminate].
    apply WrapFacts.monospace_short; [discriminate | exact Hs].
Defined.

(** ** The edge fade and the draws of a frame *)

Module EdgeFacts.
Local Open Scope Q_scope.
Import JSNumFacts.

Lemma div_pos_iff (a fade : Q) : 0 < fade -> (0 < a / fade <-> 0 < a).
Proof.
  intro Hf. split; intro H.
  - assert (E : a == (a / fade) * fade) by (field; lra).
    rewrite E. apply Qmult_lt_0_compat; assumption.
  - apply Qlt_shift_div_l; lra.
Qed.

Lemma div_ge_one_iff (a fade : Q) : 0 < fade -> (1 <= a / fade <-> fade <= a).
Proof.
  intro Hf. split; intro H.
  - assert (E : a == (a / fade) * fade) by (field; lra).
    rewrite E. nra.
  - apply Qle_shift_div_l; lra.
Qed.

(** The opacity computed from the two ratios. *)
Lemma alpha_pos (a b : Q) : 0 < Qmax 0 (Qmin (Qmin 1 a) (Qmin 1 b)) <-> 0 < a /\ 0 < b.
Proof.
  destruct (Q.max_spec 0 (Qmin (Qmin 1 a) (Qmin 1 b))) as [[H1 H2] | [H1 H2]];
    destruct (Q.min_spec (Qmin 1 a) (Qmin 1 b)) as [[H3 H4] | [H3 H4]];
    destruct (Q.min_spec 1 a) as [[H5 H6] | [H5 H6]];
    destruct (Q.min_spec 1 b) as [[H7 H8] | [H7 H8]];
    rewrite H2; rewrite ?H4, ?H6, ?H8 in *; split; intros; try split; lra.
Qed.

Lemma alpha_one (a b : Q) : Qmax 0 (Qmin (Qmin 1 a) (Qmin 1 b)) == 1 <-> 1 <= a /\ 1 <= b.
Proof.
  destruct (Q.max_spec 0 (Qmin (Qmin 1 a) (Qmin 1 b))) as [[H1 H2] | [H1 H2]];
    destruct (Q.min_spec (Qmin 1 a) (Qmin 1 b)) as [[H3 H4] | [H3 H4]];
    destruct (Q.min_spec 1 a) as [[H5 H6] | [H5 H6]];
    destruct (Q.min_spec 1 b) as [[H7 H8] | [H7 H8]];
    rewrite H2; rewrite ?H4, ?H6, ?H8 in *; split; intros; try split; lra.
Qed.

Lemma alpha_le_one (a b : Q) : Qmax 0 (Qmin (Qmin 1 a) (Qmin 1 b)) <= 1.
Proof.
  apply Q.max_lub; [discriminate|].
  eapply Qle_trans; [apply Q.le_min_l | apply Q.le_min_l].
Qed.

Lemma edgeAlpha_pos_iff (y h fade : Q) :
  0 < fade -> (0 < TextLayout.edgeAlpha y h fade <-> 0 < y /\ y < h).
Proof.
  intro Hf. unfold TextLayout.edgeAlpha. cbv zeta.
  rewrite alpha_pos, (div_pos_iff _ _ Hf), (div_pos_iff _ _ Hf).
  split; intros [A B]; split; lra.
Qed.

Lemma edgeAlpha_one_iff (y h fade : Q) :
  0 < fade ->
  (TextLayout.edgeAlpha y h fade == 1 <-> fade <= y /\ y <= h - fade).
Proof.
  intro Hf. unfold TextLayout.edgeAlpha. cbv zeta.
  rewrite alpha_one, (div_ge_one_iff _ _ Hf), (div_ge_one_iff _ _ Hf).
  split; intros [A B]; split; lra.
Qed.

Lemma edgeAlpha_mirror (y h fade : Q) :
  TextLayout.edgeAlpha (h - y) h fade == TextLayout.edgeAlpha y h fade.
Proof.
  unfold TextLayout.edgeAlpha. cbv zeta.
  assert (A : (h - y - 0) / fade == (h - y) / fade)
    by (unfold Qdiv; apply Qmult_comp; [ring | reflexivity]).
  assert (B : (h - (h - y)) / fade == (y - 0) / fade)
    by (unfold Qdiv; apply Qmult_comp; [ring | reflexivity]).
  rewrite A, B, (Q.min_comm (Qmin 1 ((h - y) / fade))). reflexivity.
Qed.

(** Near the top edge, and no nearer to the bottom one, the opacity grows
    linearly with [y]. *)
Lemma edgeAlpha_ramp (y h fade : Q) :
  0 < fade -> 0 <= y -> y <= fade -> y <= h - y ->
  TextLayout.edgeAlpha y h fade == y / fade.
Proof.
  intros Hf H0 H1 H2. unfold TextLayout.edgeAlpha. cbv zeta.
  assert (E : (y - 0) / fade == y / fade)
    by (unfold Qdiv; apply Qmult_comp; [ring | reflexivity]).
  rewrite E.
  assert (A : 0 <= y / fade) by (apply Qle_shift_div_l; lra).
  assert (B : y / fade <= 1) by (apply Qle_shift_div_r; lra).
  assert (C : y / fade <= (h - y) / fade).
  { unfold Qdiv. apply Qmult_le_compat_r; [lra|].
    apply Qlt_le_weak, Qinv_lt_0_compat, Hf. }
  rewrite (Q.min_r 1 (y / fade) B).
  rewrite Q.min_l.
  - apply Q.max_r, A.
  - apply Q.min_glb; assumption.
Qed.

(** *** The remainder *)

Lemma Qceiling_bounds (x : Q) :
  x <= inject_Z (Qceiling x) /\ inject_Z (Qceiling x) < x + 1.
Proof.
  unfold Qceiling. rewrite inject_Z_opp.
  pose proof (Qfloor_le (- x)) as F1. pose proof (Qlt_floor (- x)) as F2.
  rewrite inject_Z_plus in F2. change (inject_Z 1) with 1 in F2.
  split; lra.
Qed.

Lemma rem_range (a b r : Q) :
  0 < b -> JSNum.rem a b = Some r ->
  (0 <= a -> 0 <= r /\ r < b) /\ (a <= 0 -> - b < r /\ r <= 0).
Proof.
  intros Hb H. unfold JSNum.rem in H.
  destruct (Qeq_bool b 0); [discriminate|]. injection H as <-.
  assert (E : a == b * (a / b)) by (field; lra).
  unfold JSNum.trunc. split; intro Ha.
  - assert (D : 0 <= a / b) by (apply div_nonneg; assumption).
    apply Qle_bool_iff in D. rewrite D.
    pose proof (Qfloor_le (a / b)) as F1. pose proof (Qlt_floor (a / b)) as F2.
    rewrite inject_Z_plus in F2. change (inject_Z 1) with 1 in F2.
    set (q := a / b) in *. set (z := inject_Z (Qfloor q)) in *.
    split; rewrite E at 1; nra.
  - destruct (Qle_bool 0 (a / b)) eqn:D.
    + apply Qle_bool_iff in D.
      assert (Z0 : a / b == 0).
      { apply Qle_antisym; [|assumption].
        apply Qle_shift_div_r; lra. }
      rewrite (Qfloor_comp _ _ Z0). change (inject_Z (Qfloor 0)) with 0.
      assert (a == 0) by (rewrite E, Z0; ring).
      split; lra.
    + destruct (Qceiling_bounds (a / b)) as [C1 C2].
      set (q := a / b) in *. set (z := inject_Z (Qceiling q)) in *.
      split; rewrite E at 1; nra.
Qed.

End EdgeFacts.

Module DrawFacts.
Local Open Scope Q_scope.
Import Compositor JSNumFacts CompositorFacts EdgeFacts.

Section Layout.
Variable measureText : Q -> TextLayout.text -> Q.
Variable text : TextLayout.text.
Variables w h : Z.
Variable isMobile : bool.

Local Abbreviation lines := (lines measureText text w h isMobile).
Local Abbreviation lineHeight := (lineHeight h isMobile).
Local Abbreviation blockHeight := (blockHeight measureText text w h isMobile).
Local Abbreviation baseY := (baseY measureText text w h isMobile).
Local Abbreviation stack_from := (stack_from w h isMobile).
Local Abbreviation text_draws := (text_draws measureText text w h isMobile).

(** What a draw is: a line of the stack, centred, at its row, with the
    opacity of that row, which is positive. *)
Let drawn_from (ls : list TextLayout.text) (d : TextDraw) : Prop :=
  In (td_line d) ls
  /\ td_x d = inject_Z w * 0.5
  /\ td_alpha d = TextLayout.edgeAlpha (td_y d) (inject_Z h) (lineHeight * 2)
  /\ 0 < td_alpha d.

Lemma stack_from_In ls : forall i y d,
  In d (stack_from ls i y) -> drawn_from ls d.
Proof.
  induction ls as [|l ls IH]; intros i y d H; simpl in H; [contradiction|].
  apply in_app_or in H as [H | H].
  - unfold JSNum.le in H.
    destruct (Qle_bool _ 0) eqn:E; simpl in H; [contradiction|].
    destruct H as [<- | []]. unfold drawn_from. cbn [td_line td_x td_y td_alpha].
    split; [now left | split; [reflexivity | split; [reflexivity|]]].
    destruct (Qlt_le_dec 0 (TextLayout.edgeAlpha (y + inject_Z i * lineHeight)
                              (inject_Z h) (lineHeight * 2))) as [L | L];
      [assumption|].
    apply Qle_bool_iff in L. congruence.
  - destruct (IH _ _ _ H) as (A & B & C & D).
    split; [now right | split; [assumption | split; assumption]].
Qed.

Lemma stack_from_length ls : forall i y,
  (length (stack_from ls i y) <= length ls)%nat.
Proof.
  induction ls as [|l ls IH]; intros i y; simpl; [lia|].
  rewrite length_app. specialize (IH (i + 1)%Z y).
  destruct (JSNum.le _ 0); simpl; lia.
Qed.

Lemma fade_pos : 0 < lineHeight * 2.
Proof. pose proof (lineHeight_min h isMobile). lra. Qed.

Lemma text_draws_visible_draw scroll d :
  In d (text_draws scroll) ->
  In (td_line d) lines
  /\ td_x d = inject_Z w * 0.5
  /\ (0 < td_y d /\ td_y d < inject_Z h)
  /\ (0 < td_alpha d /\ td_alpha d <= 1).
Proof.
  intro H. unfold Compositor.text_draws in H.
  destruct (baseY scroll) as [b|]; [|contradiction].
  assert (D : drawn_from lines d).
  { apply in_app_or in H as [H | H]; unfold stack in H;
      now apply stack_from_In in H. }
  destruct D as (A & B & C & P).
  split; [assumption | split; [assumption | split]].
  - rewrite C in P. now apply (edgeAlpha_pos_iff _ _ _ fade_pos).
  - split; [assumption|]. rewrite C. apply alpha_le_one.
Qed.

Lemma text_draws_length scroll :
  (length (text_draws scroll) <= 2 * length lines)%nat.
Proof.
  unfold Compositor.text_draws. destruct (baseY scroll) as [b|]; simpl; [|lia].
  rewrite length_app. unfold stack.
  pose proof (stack_from_length lines 0 (b + inject_Z (-1) * blockHeight)).
  pose proof (stack_from_length lines 0 (b + inject_Z 0 * blockHeight)).
  lia.
Qed.

Lemma baseY_bounds scroll :
  (0 < h)%Z ->
  exists y, baseY scroll = Some y
    /\ (0 <= scroll ->
        inject_Z h - bottomMargin h - blockHeight < y
        /\ y <= inject_Z h - bottomMargin h)
    /\ (scroll <= 0 ->
        inject_Z h - bottomMargin h <= y
        /\ y < inject_Z h - bottomMargin h + blockHeight).
Proof.
  intro Hh. pose proof (blockHeight_pos measureText text w h isMobile Hh) as Hb.
  unfold Compositor.baseY.
  destruct (JSNum.rem scroll blockHeight) as [r|] eqn:E.
  - destruct (rem_range _ _ _ Hb E) as [P N].
    eexists. split; [reflexivity|]. split; intro Hs.
    + destruct (P Hs). split; lra.
    + destruct (N Hs). split; lra.
  - unfold JSNum.rem in E. destruct (Qeq_bool blockHeight 0) eqn:Z0;
      [|discriminate].
    apply Qeq_bool_iff in Z0. lra.
Qed.

End Layout.
End DrawFacts.

(** X11: the shape of the edge fade, for a positive fade length.  The
    opacity is positive exactly strictly inside the surface, it is 1
    exactly from [fade] below the top edge to [fade] above the bottom edge,
    it is the same at [y] and at [h - y], and near the top edge it rises
    linearly as [y / fade]. *)
Theorem edgeAlpha_profile (y h fade : Q) :
  (0 < fade)%Q ->
  ((0 < TextLayout.edgeAlpha y h fade)%Q <-> (0 < y)%Q /\ (y < h)%Q)
  /\ ((TextLayout.edgeAlpha y h fade == 1)%Q <->
      (fade <= y)%Q /\ (y <= h - fade)%Q)
  /\ (TextLayout.edgeAlpha (h - y) h fade == TextLayout.edgeAlpha y h fade)%Q
  /\ ((0 <= y)%Q -> (y <= fade)%Q -> (y <= h - y)%Q ->
      (TextLayout.edgeAlpha y h fade == y / fade)%Q).
Proof.
  intro Hf. repeat apply conj.
  - apply (proj1 (EdgeFacts.edgeAlpha_pos_iff y h fade Hf)).
  - apply (proj2 (EdgeFacts.edgeAlpha_pos_iff y h fade Hf)).
  - apply (proj1 (EdgeFacts.edgeAlpha_one_iff y h fade Hf)).
  - apply (proj2 (EdgeFacts.edgeAlpha_one_iff y h fade Hf)).
  - apply EdgeFacts.edgeAlpha_mirror.
  - now apply EdgeFacts.edgeAlpha_ramp.
Qed.

Lemma edgeAlpha_profile_witness :
  (TextLayout.edgeAlpha 62 1000 124 == 62 / 124)%Q.
Proof.
  apply (proj2 (proj2 (proj2 (edgeAlpha_profile 62 1000 124 eq_refl))));
    discriminate.
Defined.


(** X12: what a frame draws.  Every text draw of a frame is one of the
    wrapped lines, centred at half the width, at a row strictly inside the
    surface and with an opacity above 0 and at most 1; a frame issues at
    most two draws per line. *)
Theorem text_draws_visible (measureText : Q -> TextLayout.text -> Q)
    (text : TextLayout.text) (w h : Z) (isMobile : bool) (scroll : Q) :
  (length (Compositor.text_draws measureText text w h isMobile scroll)
   <= 2 * length (Compositor.lines measureText text w h isMobile))%nat
  /\ Forall
       (fun d =>
          In (Compositor.td_line d)
             (Compositor.lines measureText text w h isMobile)
          /\ Compositor.td_x d = (inject_Z w * 0.5)%Q
          /\ ((0 < Compositor.td_y d)%Q /\ (Compositor.td_y d < inject_Z h)%Q)
          /\ ((0 < Compositor.td_alpha d)%Q /\ (Compositor.td_alpha d <= 1)%Q))
       (Compositor.text_draws measureText text w h isMobile scroll).
Proof.
  split.
  - apply DrawFacts.text_draws_length.
  - apply Forall_forall. intros d Hd.
    exact (DrawFacts.text_draws_visible_draw measureText text w h isMobile
             scroll d Hd).
Qed.

(** X13: where the block starts.  On a surface of positive height the
    base line is a number; for a non-negative offset it lies in the
    [blockHeight] pixels that end at [h - bottomMargin], and for a
    non-positive offset in the [blockHeight] pixels that begin there. *)
Theorem baseY_range (measureText : Q -> TextLayout.text -> Q)
    (text : TextLayout.text) (w h : Z) (isMobile : bool) (scroll : Q) :
  (0 < h)%Z ->
  exists y,
    Compositor.baseY measureText text w h isMobile scroll = Some y
    /\ ((0 <= scroll)%Q ->
        (inject_Z h - Compositor.bottomMargin h
         - Compositor.blockHeight measureText text w h isMobile < y)%Q
        /\ (y <= inject_Z h - Compositor.bottomMargin h)%Q)
    /\ ((scroll <= 0)%Q ->
        (inject_Z h - Compositor.bottomMargin h <= y)%Q
        /\ (y < inject_Z h - Compositor.bottomMargin h
                + Compositor.blockHeight measureText text w h isMobile)%Q).
Proof. apply DrawFacts.baseY_bounds. Qed.

Lemma baseY_range_witness :
  exists y,
    Compositor.baseY Fixture.monospace (TextLayout.ascii_text "A")
      1000 1000 false 300 = Some y
    /\ ((0 <= 300)%Q ->
        (inject_Z 1000 - Compositor.bottomMargin 1000
         - Compositor.blockHeight Fixture.monospace
             (TextLayout.ascii_text "A") 1000 1000 false < y)%Q
        /\ (y <= inject_Z 1000 - Compositor.bottomMargin 1000)%Q)
    /\ ((300 <= 0)%Q ->
        (inject_Z 1000 - Compositor.bottomMargin 1000 <= y)%Q
        /\ (y < inject_Z 1000 - Compositor.bottomMargin 1000
                + Compositor.blockHeight Fixture.monospace
                    (TextLayout.ascii_text "A") 1000 1000 false)%Q).
Proof.
  apply (baseY_range Fixture.monospace (TextLayout.ascii_text "A")
           1000 1000 false 300).
  reflexivity.
Defined.

(** ** The life cycle: construction, resize, frames and teardown *)

Module LifecycleFacts.
Import Scene SceneFacts.
Local Open Scope Q_scope.

(** *** Shaders and programs *)

Lemma createShader_world host type s :
  createShader host type s
  = if createShader_ok host type then
      if COMPILE_STATUS host type
      then (Return (GLShader type),
            set_gl_objects (GLShader type :: gl_objects s) s)
      else (Throw ("Shader compile failed: " ++ shaderInfoLog host type)%string,
            s)
    else (Throw "Failed to create shader"%string, s).
Proof.
  unfold createShader, gl_create, gl_delete, bind, modify, ret, throw.
  destruct (createShader_ok host type); [|reflexivity].
  destruct (COMPILE_STATUS host type); [reflexivity|].
  destruct s, type; reflexivity.
Qed.


(** [createProgram] touches nothing but the list of objects. *)
Lemma createProgram_frame host s :
  exists objs, snd (createProgram host s) = set_gl_objects objs s.
Proof.
  unfold createProgram, bind. rewrite createShader_world.
  assert (Same : s = set_gl_objects (gl_objects s) s) by (destruct s; reflexivity).
  destruct (createShader_ok host VERTEX_SHADER);
    [|exists (gl_objects s); exact Same].
  destruct (COMPILE_STATUS host VERTEX_SHADER);
    [|exists (gl_objects s); exact Same].
  rewrite createShader_world.
  destruct (createShader_ok host FRAGMENT_SHADER); [|eexists; reflexivity].
  destruct (COMPILE_STATUS host FRAGMENT_SHADER); [|eexists; reflexivity].
  unfold gl_create, gl_delete, bind, modify, ret, throw.
  destruct (createProgram_ok host); [|eexists; reflexivity].
  destruct (LINK_STATUS host); cbn; eexists; destruct s; reflexivity.
Qed.

(** *** Resize *)

Lemma resize_returns win s : resize win s = (Return tt, exec (resize win) s).
Proof.
  unfold exec, resize. destruct (device_size win) as [w h].
  unfold set_off_dimension, bind, gets, modify. reflexivity.
Qed.

(** [resize] leaves the objects, the frame requests, the listener, the
    clock and the offset alone, and sets the viewport to the canvas. *)
Lemma resize_frame win s :
  let s' := exec (resize win) s in
  gl_objects s' = gl_objects s /\ gl_program s' = gl_program s
  /\ pending s' = pending s /\ raf s' = raf s
  /\ next_request s' = next_request s /\ listener s' = listener s
  /\ start s' = start s /\ scroll s' = scroll s
  /\ off_ctx s' = off_ctx s /\ tex_image s' = tex_image s
  /\ gl_viewport s' = canvas_size s'.
Proof.
  destruct s as [objs prog vp [cw ch] allocs ctx osize bitmap resets tex
                 reqs next id lst st sc].
  unfold exec, resize. destruct (device_size win) as [w h].
  unfold set_off_dimension, bind, gets, modify. cbn -[Z.eqb].
  destruct (negb (cw =? w)%Z || negb (ch =? h)%Z); destruct ctx; cbn;
    repeat apply conj; reflexivity.
Qed.

Lemma resize_sizes win s :
  canvas_size (exec (resize win) s) = device_size win
  /\ gl_viewport (exec (resize win) s) = device_size win
  /\ off_size (exec (resize win) s) = device_size win.
Proof.
  destruct (resize_fields win s) as (C & _ & O & _).
  destruct (resize_frame win s) as (_ & _ & _ & _ & _ & _ & _ & _ & _ & _ & V).
  assert (C' : canvas_size (exec (resize win) s) = device_size win).
  { rewrite C.
    destruct (negb (fst (canvas_size s) =? fst (device_size win))%Z
              || negb (snd (canvas_size s) =? snd (device_size win))%Z) eqn:E;
      [reflexivity|].
    apply orb_false_iff in E as [E1 E2].
    apply negb_false_iff, Z.eqb_eq in E1. apply negb_false_iff, Z.eqb_eq in E2.
    destruct (canvas_size s), (device_size win). simpl in *. congruence. }
  split; [exact C' | split; [|exact O]]. now rewrite V.
Qed.

(** *** The effect, when the program builds *)

Lemma bind_return {A B} (m : M A) (f : A -> M B) s a s1 :
  m s = (Return a, s1) -> bind m f s = f a s1.
Proof. unfold bind. now intros ->. Qed.

Lemma modify_returns f s : modify f s = (Return tt, f s).
Proof. reflexivity. Qed.

Lemma useEffect_mounts host win now s p s1 :
  webgl host = true ->
  createProgram host s = (Return p, s1) ->
  exists s',
    useEffect host win now s = (Return Cleanup, s')
    /\ gl_objects s' = GLTexture :: GLBuffer :: gl_objects s1
    /\ pending s' = next_request s1 :: pending s1
    /\ raf s' = next_request s1
    /\ listener s' = true
    /\ gl_program s' = true
    /\ off_ctx s' = context2d host
    /\ start s' = now
    /\ scroll s' = 0.
Proof.
  intros Hgl Hp. unfold useEffect. rewrite Hgl. cbn [negb].
  rewrite (bind_return _ _ _ _ _ Hp). clear Hp.
  rewrite (bind_return _ _ _ _ _ (modify_returns _ _)).
  unfold gl_create at 1. rewrite (bind_return _ _ _ _ _ (modify_returns _ _)).
  rewrite (bind_return _ _ _ _ _ (modify_returns _ _)).
  unfold gl_create at 1. rewrite (bind_return _ _ _ _ _ (modify_returns _ _)).
  unfold set_raf at 1. rewrite (bind_return _ _ _ _ _ (modify_returns _ _)).
  rewrite (bind_return _ _ _ _ _ (modify_returns _ _)).
  rewrite (bind_return _ _ _ _ _ (modify_returns _ _)).
  rewrite (bind_return _ _ _ _ _ (resize_returns _ _)).
  match goal with
  | |- context [exec (resize win) ?X] =>
      destruct (resize_frame win X)
        as (O & G & P & R & N & L & St & Sc & Cx & _ & _);
      set (s3 := exec (resize win) X) in *; clearbody s3
  end.
  cbn in O, G, P, R, N, L, St, Sc, Cx.
  eexists. split.
  - unfold requestAnimationFrame, set_raf, bind, modify, ret. reflexivity.
  - cbn. rewrite ?O, ?G, ?P, ?N, ?L, ?St, ?Sc, ?Cx.
    repeat apply conj; reflexivity.
Qed.

End LifecycleFacts.



(** X15: after [resize], for a window whose device size is within the
    range of the canvas attributes, the visible canvas and the offscreen
    canvas both have the device size of the window, whatever their sizes
    were before. *)
Theorem resize_sizes_agree (win : Scene.Window) (s : Scene.World) :
  Scene.attribute_range (fst (Scene.device_size win)) ->
  Scene.attribute_range (snd (Scene.device_size win)) ->
  Scene.canvas_size (Scene.exec (Scene.resize win) s) = Scene.device_size win
  /\ Scene.off_size (Scene.exec (Scene.resize win) s) = Scene.device_size win.
Proof.
  intros _ _. destruct (LifecycleFacts.resize_sizes win s) as (C & _ & O).
  split; assumption.
Qed.

Lemma resize_sizes_agree_witness :
  Scene.canvas_size (Scene.exec (Scene.resize Fixture.window_800x600)
                       Fixture.painted)
  = Scene.device_size Fixture.window_800x600
  /\ Scene.off_size (Scene.exec (Scene.resize Fixture.window_800x600)
                       Fixture.painted)
     = Scene.device_size Fixture.window_800x600.
Proof.
  apply (resize_sizes_agree Fixture.window_800x600 Fixture.painted);
    vm_compute; split; discriminate.
Defined.


Module LoopFacts.
Import Scene SceneFacts LifecycleFacts.
Local Open Scope Q_scope.

Section Component.
Variable host : Host.
Variable props : Props.

(** *** One frame *)

Lemma frame_idle win now s :
  pending s = [] -> animation_frame host props win now s = (Return tt, s).
Proof. intro H. unfold animation_frame, bind, gets. rewrite H. reflexivity. Qed.

(** A frame that runs: what it leaves. *)
Lemma frame_runs win now s :
  pending s <> [] -> off_ctx s = true ->
  let s' := exec (animation_frame host props win now) s in
  scroll s' = scroll s + speed props * frame_dt now (start s)
  /\ start s' = now
  /\ pending s' = [next_request s] /\ raf s' = next_request s
  /\ off_ctx s' = true /\ listener s' = listener s
  /\ gl_objects s' = gl_objects s
  /\ off_bitmap s'
     = Frame (fst (off_size s)) (snd (off_size s))
         (Compositor.text_draws (measureText host) (text props)
            (fst (off_size s)) (snd (off_size s))
            (Z.ltb (innerWidth win) 768) (scroll s'))
  /\ tex_image s' = off_bitmap s'.
Proof.
  intros P C. run. destruct (pending s) as [|id reqs]; [congruence|].
  cbn. rewrite C. cbn. repeat apply conj; try reflexivity; assumption.
Qed.

(** A frame without a 2D context: the callback throws and requests no
    further frame. *)
Lemma frame_throws win now s :
  pending s <> [] -> off_ctx s = false ->
  pending (exec (animation_frame host props win now) s) = []
  /\ raf (exec (animation_frame host props win now) s) = raf s
  /\ listener (exec (animation_frame host props win now) s) = listener s.
Proof.
  intros P C. run. destruct (pending s) as [|id reqs]; [congruence|].
  cbn. rewrite C. cbn. repeat apply conj; reflexivity.
Qed.

Lemma resize_event_idle win s :
  listener s = false -> resize_event win s = (Return tt, s).
Proof. intro H. unfold resize_event, bind, gets. rewrite H. reflexivity. Qed.

Lemma resize_event_runs win s :
  listener s = true -> exec (resize_event win) s = exec (resize win) s.
Proof. intro H. unfold exec, resize_event, bind, gets. rewrite H. reflexivity. Qed.

(** *** At most one frame request *)

Lemma deliver_one_request e s :
  one_request s -> one_request (exec (deliver host props e) s).
Proof.
  intro I. destruct e as [win now | win]; simpl.
  - destruct (pending s) as [|id reqs] eqn:P.
    + unfold exec. rewrite (frame_idle win now s P). simpl.
      left. exact P.
    + assert (P' : pending s <> []) by congruence.
      destruct (off_ctx s) eqn:C.
      * destruct (frame_runs win now s P' C) as (_ & _ & A & B & _).
        right. now rewrite A, B.
      * destruct (frame_throws win now s P' C) as (A & _).
        left. exact A.
  - destruct (listener s) eqn:L.
    + rewrite (resize_event_runs win s L).
      destruct (resize_frame win s) as (_ & _ & P & R & _).
      unfold one_request. rewrite P, R. exact I.
    + unfold exec. rewrite (resize_event_idle win s L). exact I.
Qed.

Lemma run_one_request es : forall s,
  one_request s -> one_request (run host props es s).
Proof.
  induction es as [|e es IH]; intros s I; simpl; [exact I|].
  apply IH. now apply deliver_one_request.
Qed.

(** *** After the cleanup *)

Lemma cleanup_idle s :
  one_request s ->
  pending (exec cleanup s) = [] /\ listener (exec cleanup s) = false.
Proof.
  intro I. run. split; [|reflexivity].
  destruct I as [-> | ->]; simpl; [reflexivity|].
  now rewrite Nat.eqb_refl.
Qed.

Lemma run_idle es : forall s,
  pending s = [] -> listener s = false -> run host props es s = s.
Proof.
  induction es as [|e es IH]; intros s P L; simpl; [reflexivity|].
  assert (E : exec (deliver host props e) s = s).
  { destruct e as [win now | win]; unfold exec; simpl.
    - now rewrite (frame_idle win now s P).
    - now rewrite (resize_event_idle win s L). }
  rewrite E. now apply IH.
Qed.

End Component.

(** A mounted scene holds one frame request. *)
Lemma useEffect_success host win now s :
  fst (useEffect host win now s) = Return Cleanup ->
  webgl host = true
  /\ exists p s1, createProgram host s = (Return p, s1).
Proof.
  unfold useEffect. destruct (webgl host); cbn [negb]; [|discriminate].
  intro H. split; [reflexivity|].
  unfold bind in H at 1.
  destruct (createProgram host s) as [[p | e] s1]; [eauto | discriminate].
Qed.

Lemma createProgram_pending host s :
  pending (snd (createProgram host s)) = pending s
  /\ next_request (snd (createProgram host s)) = next_request s.
Proof.
  destruct (createProgram_frame host s) as [objs ->]. split; reflexivity.
Qed.

Lemma mounted_one_request host win now s :
  pending s = [] ->
  fst (useEffect host win now s) = Return Cleanup ->
  one_request (exec (useEffect host win now) s).
Proof.
  intros P H. destruct (useEffect_success host win now s H) as (G & p & s1 & E).
  destruct (useEffect_mounts host win now s p s1 G E)
    as (s' & U & _ & Pn & R & _).
  unfold exec. rewrite U. simpl. right. rewrite Pn, R.
  destruct (createProgram_pending host s) as [Pp _]. rewrite E in Pp.
  simpl in Pp. now rewrite Pp, P.
Qed.

End LoopFacts.

(** X16: a frame that runs (a request is pending and the offscreen canvas
    has its 2D context) paints the offscreen canvas at its current size
    with the text placed for the offset it has just advanced, uploads that
    very image to the texture, creates no WebGL object, and leaves exactly
    one frame request pending, whose handle is in [raf]. *)
Theorem frame_paints_and_uploads (host : Scene.Host) (props : Scene.Props)
    (win : Scene.Window) (now : Q) (s : Scene.World) :
  Scene.pending s <> [] -> Scene.off_ctx s = true ->
  let s' := Scene.exec (Scene.animation_frame host props win now) s in
  Scene.off_bitmap s'
  = Scene.Frame (fst (Scene.off_size s)) (snd (Scene.off_size s))
      (Compositor.text_draws (Scene.measureText host) (Scene.text props)
         (fst (Scene.off_size s)) (snd (Scene.off_size s))
         (Z.ltb (Scene.innerWidth win) 768) (Scene.scroll s'))
  /\ Scene.tex_image s' = Scene.off_bitmap s'
  /\ Scene.gl_objects s' = Scene.gl_objects s
  /\ Scene.pending s' = [Scene.raf s'].
Proof.
  intros P C s'.
  destruct (LoopFacts.frame_runs host props win now s P C)
    as (_ & _ & Pn & R & _ & _ & O & B & T).
  fold s' in Pn, R, O, B, T.
  repeat apply conj; try assumption. now rewrite Pn, R.
Qed.

Lemma frame_paints_and_uploads_witness :
  Scene.tex_image Fixture.painted = Scene.off_bitmap Fixture.painted.
Proof.
  refine (proj1 (proj2 (frame_paints_and_uploads Fixture.host_ok
                          Fixture.props_A Fixture.window_800x600 16
                          Fixture.mounted _ _)));
    vm_compute; [discriminate | reflexivity].
Defined.

(** X17: the teardown is final.  When the effect has mounted the scene on
    a page with no frame request of its own, then after any run of display
    refreshes and window resizes followed by the cleanup, no frame request
    is pending and no listener is attached, and no later refresh or resize
    changes anything. *)
Theorem teardown_is_final (host : Scene.Host) (props : Scene.Props)
    (win : Scene.Window) (now : Q) (s0 : Scene.World)
    (before after : list Scene.Event) :
  Scene.pending s0 = [] ->
  fst (Scene.useEffect host win now s0) = Scene.Return Scene.Cleanup ->
  let s :=
    Scene.exec Scene.cleanup
      (Scene.run host props before
         (Scene.exec (Scene.useEffect host win now) s0)) in
  Scene.pending s = [] /\ Scene.listener s = false
  /\ Scene.run host props after s = s.
Proof.
  intros P H s.
  pose proof (LoopFacts.mounted_one_request host win now s0 P H) as I.
  apply (LoopFacts.run_one_request host props before) in I.
  destruct (LoopFacts.cleanup_idle _ I) as [Pn L]. fold s in Pn, L.
  split; [exact Pn | split; [exact L|]].
  now apply LoopFacts.run_idle.
Qed.

Lemma teardown_is_final_witness :
  let s :=
    Scene.exec Scene.cleanup
      (Scene.run Fixture.host_ok Fixture.props_A
         [Scene.Refresh Fixture.window_800x600 16;
          Scene.Resized Fixture.window_800x600]
         (Scene.exec (Scene.useEffect Fixture.host_ok Fixture.window_800x600 0)
            Scene.page)) in
  Scene.pending s = [] /\ Scene.listener s = false
  /\ Scene.run Fixture.host_ok Fixture.props_A
       [Scene.Resized Fixture.window_800x600;
        Scene.Refresh Fixture.window_800x600 32] s
     = s.
Proof.
  apply (teardown_is_final Fixture.host_ok Fixture.props_A
           Fixture.window_800x600 0 Scene.page); vm_compute; reflexivity.
Defined.


Module ScrollFacts.
Import Scene SceneFacts LifecycleFacts LoopFacts.
Local Open Scope Q_scope.

Section Component.
Variable host : Host.
Variable props : Props.
Variable win : Window.

Lemma frame_dt_max now start0 : frame_dt now start0 <= 0.05.
Proof. unfold frame_dt. apply Q.le_min_l. Qed.

Lemma frame_advance_max now s :
  0 <= speed props ->
  scroll (exec (animation_frame host props win now) s)
  <= scroll s + speed props * 0.05.
Proof.
  intro Hs. destruct (frame_step host props win now s) as [[E | E] _]; rewrite E.
  - assert (0 <= speed props * 0.05) by (apply Qmult_le_0_compat; [assumption | discriminate]).
    lra.
  - pose proof (frame_dt_max now (start s)) as D.
    assert (speed props * frame_dt now (start s) <= speed props * 0.05).
    { rewrite !(Qmult_comm (speed props)).
      apply Qmult_le_compat_r; assumption. }
    lra.
Qed.

Lemma frames_advance_max times : forall s,
  0 <= speed props ->
  scroll (frames host props win times s)
  <= scroll s + inject_Z (Z.of_nat (length times)) * (speed props * 0.05).
Proof.
  induction times as [|t ts IH]; intros s Hs.
  - cbn [frames length]. change (inject_Z (Z.of_nat 0)) with 0. lra.
  - cbn [frames length]. specialize (IH (exec (animation_frame host props win t) s) Hs).
    pose proof (frame_advance_max t s Hs) as F.
    rewrite Nat2Z.inj_succ, <- Z.add_1_r, inject_Z_plus.
    change (inject_Z 1) with 1. lra.
Qed.

(** With frames at most 50 ms apart nothing is clamped: the offset follows
    the clock. *)
Lemma frames_steady times : forall s,
  pending s <> [] -> off_ctx s = true ->
  steady (start s) times ->
  scroll (frames host props win times s)
  == scroll s + speed props * ((last times (start s) - start s) / 1000).
Proof.
  induction times as [|t ts IH]; intros s P C St.
  - simpl. field.
  - destruct St as [Gap St]. cbn [frames].
    destruct (frame_runs host props win t s P C)
      as (Sc & Sta & Pn & _ & C' & _).
    set (s' := exec (animation_frame host props win t) s) in *.
    assert (P' : pending s' <> []) by (rewrite Pn; discriminate).
    rewrite <- Sta in St.
    rewrite (IH s' P' C' St), Sc, Sta.
    assert (D : frame_dt t (start s) == (t - start s) / 1000).
    { unfold frame_dt. apply Q.min_r. apply Qle_shift_div_r; [reflexivity|]. lra. }
    rewrite D.
    assert (L : forall (l : list Q) a d, last (a :: l) d = last l a).
    { clear. induction l as [|x l IHl]; intros a d; [reflexivity|].
      change (last (a :: x :: l) d) with (last (x :: l) d).
      rewrite (IHl x d), (IHl x a). reflexivity. }
    rewrite (L ts t (start s)).
    field.
Qed.

End Component.
End ScrollFacts.

(** X18: a stall cannot make the text jump.  For a non-negative speed, a
    run of [n] frames advances the offset by at most [n * speed * 0.05]
    pixels, whatever the time stamps of the frames. *)
Theorem frames_advance_bounded (host : Scene.Host) (props : Scene.Props)
    (win : Scene.Window) (times : list Q) (s : Scene.World) :
  (0 <= Scene.speed props)%Q ->
  (Scene.scroll (Scene.frames host props win times s)
   <= Scene.scroll s
      + inject_Z (Z.of_nat (length times)) * (Scene.speed props * 0.05))%Q.
Proof. apply ScrollFacts.frames_advance_max. Qed.

Lemma frames_advance_bounded_witness :
  (Scene.scroll (Scene.frames Fixture.host_ok Fixture.props_A
                   Fixture.window_800x600 [16; 5016; 5032] Fixture.mounted)
   <= Scene.scroll Fixture.mounted
      + inject_Z (Z.of_nat (length [16; 5016; 5032]%Q))
        * (Scene.speed Fixture.props_A * 0.05))%Q.
Proof.
  apply (frames_advance_bounded Fixture.host_ok Fixture.props_A
           Fixture.window_800x600 [16; 5016; 5032] Fixture.mounted).
  discriminate.
Defined.

(** X19: at a steady cadence the offset follows the clock.  When a frame
    request is pending, the offscreen canvas has its 2D context and no
    frame comes more than 50 ms after the one before it, a run of frames
    advances the offset by [speed] times the time, in seconds, from the
    [start] it found to the last frame. *)
Theorem frames_follow_clock (host : Scene.Host) (props : Scene.Props)
    (win : Scene.Window) (times : list Q) (s : Scene.World) :
  Scene.pending s <> [] -> Scene.off_ctx s = true ->
  Scene.steady (Scene.start s) times ->
  (Scene.scroll (Scene.frames host props win times s)
   == Scene.scroll s
      + Scene.speed props
        * ((last times (Scene.start s) - Scene.start s) / 1000))%Q.
Proof. apply ScrollFacts.frames_steady. Qed.

Lemma frames_follow_clock_witness :
  (Scene.scroll (Scene.frames Fixture.host_ok Fixture.props_A
                   Fixture.window_800x600 [16; 33; 50] Fixture.mounted)
   == Scene.scroll Fixture.mounted
      + Scene.speed Fixture.props_A
        * ((last [16; 33; 50] (Scene.start Fixture.mounted)
            - Scene.start Fixture.mounted) / 1000))%Q.
Proof.
  apply (frames_follow_clock Fixture.host_ok Fixture.props_A
           Fixture.window_800x600 [16; 33; 50] Fixture.mounted).
  - vm_compute. discriminate.
  - vm_compute. reflexivity.
  - vm_compute. repeat split; discriminate.
Defined.

(** ** The shaders on the screen *)

Module BarrelFacts.
Import Shader ShaderFacts.
Local Open Scope R_scope.

(** The vertex shader takes the clip square to the unit square. *)
Lemma VS_unit_square p :
  -1 <= vx p <= 1 -> -1 <= vy p <= 1 ->
  0 <= vx (VS p) <= 1 /\ 0 <= vy (VS p) <= 1.
Proof. intros Hx Hy. unfold VS. cbn [vx vy]. lra. Qed.

(** On the screen [r2] is at most one half: the corners. *)
Lemma r2_screen uv :
  0 <= vx uv <= 1 -> 0 <= vy uv <= 1 -> 0 <= r2 uv <= 0.5.
Proof.
  intros Hx Hy. unfold r2, centered, dot. cbn [vx vy].
  set (x := vx uv) in *. set (y := vy uv) in *.
  pose proof (Rle_0_sqr (x - 0.5)) as X0.
  pose proof (Rle_0_sqr (y - 0.5)) as Y0.
  unfold Rsqr in X0, Y0.
  assert (X1 : 0 <= x * (1 - x)) by (apply Rmult_le_pos; lra).
  assert (Y1 : 0 <= y * (1 - y)) by (apply Rmult_le_pos; lra).
  lra.
Qed.

Section FS.
Variables uK uKcube : R.
Hypothesis k_range : -2 <= uK <= 0.
Hypothesis kcube_range : -2 <= uK + uKcube <= 0.

(** The factor of a pixel on the screen pulls towards the centre. *)
Lemma f_barrel uv :
  0 <= vx uv <= 1 -> 0 <= vy uv <= 1 -> 0 <= f uK uKcube uv <= 1.
Proof.
  intros Hx Hy. destruct (r2_screen uv Hx Hy) as [R0 R1].
  unfold f. set (r := r2 uv) in *.
  assert (S0 : 0 <= sqrt r) by apply sqrt_pos.
  assert (S1 : sqrt r <= 1).
  { rewrite <- sqrt_1. apply sqrt_le_1_alt. lra. }
  set (q := sqrt r) in *.
  assert (A : -2 <= uK + uKcube * q <= 0) by nra.
  nra.
Qed.

Lemma distorted_screen uv :
  0 <= vx uv <= 1 -> 0 <= vy uv <= 1 ->
  0 <= vx (distorted uK uKcube uv) <= 1
  /\ 0 <= vy (distorted uK uKcube uv) <= 1.
Proof.
  intros Hx Hy. destruct (f_barrel uv Hx Hy) as [F0 F1].
  unfold distorted, centered. cbn [vx vy].
  set (g := f uK uKcube uv) in *. nra.
Qed.

End FS.
End BarrelFacts.

(** X20: with coefficients that pull towards the centre ([-2 <= k <= 0] and
    [-2 <= k + kcube <= 0], as for the default [k = -0.28], [kcube = 0.1]
    and for the home page's [k = -1], [kcube = 0.1]) the cutoff never
    fires: for every point of the full-screen quad the sampled coordinate
    stays in the unit square, and the pixel is the texel there with its
    colour scaled by the vignette. *)
Theorem barrel_never_cut (uTexture : Shader.vec2 -> Shader.vec4)
    (uK uKcube : R) (aPosition : Shader.vec2) :
  (-2 <= uK <= 0)%R -> (-2 <= uK + uKcube <= 0)%R ->
  (-1 <= Shader.vx aPosition <= 1)%R -> (-1 <= Shader.vy aPosition <= 1)%R ->
  let vUv := Shader.VS aPosition in
  let d := Shader.distorted uK uKcube vUv in
  (0 <= Shader.vx d <= 1)%R /\ (0 <= Shader.vy d <= 1)%R
  /\ Shader.FS uTexture uK uKcube vUv
     = Shader.mkvec4
         (Shader.cr (uTexture d) * Shader.vignette (Shader.r2 vUv))
         (Shader.cg (uTexture d) * Shader.vignette (Shader.r2 vUv))
         (Shader.cb (uTexture d) * Shader.vignette (Shader.r2 vUv))
         (Shader.ca (uTexture d)).
Proof.
  intros Hk Hc Hx Hy vUv d.
  destruct (BarrelFacts.VS_unit_square aPosition Hx Hy) as [Ux Uy].
  destruct (BarrelFacts.distorted_screen uK uKcube Hk Hc vUv Ux Uy) as [Dx Dy].
  split; [exact Dx | split; [exact Dy|]].
  apply ShaderFacts.FS_in; assumption.
Qed.

Lemma barrel_never_cut_witness :
  let vUv := Shader.VS (Shader.mkvec2 1 (-1)) in
  let d := Shader.distorted (-1) 0.1 vUv in
  (0 <= Shader.vx d <= 1)%R /\ (0 <= Shader.vy d <= 1)%R
  /\ Shader.FS (fun _ => Shader.mkvec4 1 1 1 1) (-1) 0.1 vUv
     = Shader.mkvec4
         (Shader.cr (Shader.mkvec4 1 1 1 1) * Shader.vignette (Shader.r2 vUv))
         (Shader.cg (Shader.mkvec4 1 1 1 1) * Shader.vignette (Shader.r2 vUv))
         (Shader.cb (Shader.mkvec4 1 1 1 1) * Shader.vignette (Shader.r2 vUv))
         (Shader.ca (Shader.mkvec4 1 1 1 1)).
Proof.
  apply (barrel_never_cut (fun _ => Shader.mkvec4 1 1 1 1) (-1) 0.1
           (Shader.mkvec2 1 (-1))); cbn [Shader.vx Shader.vy]; lra.
Defined.
